(** * Quadratic extension gadget of std/algebra/fields_bls12377 (e2.go)

    The gadget is embedded the way the Go file is written: every method has a
    pointer receiver [e *E2] (a cell of a store of elements), takes its
    operands by value, talks to the constraint-system builder through the
    [frontend.API] interface, and may panic.  Circuit variables are symbolic;
    they get a value only under a witness assignment. *)

From Stdlib Require Import ZArith Lia String Zcong.
From stdpp Require Import base list.

Local Open Scope Z_scope.

(** ** Errors, panics and the state-and-panic monad *)

(** Go's [error] values. *)
Definition error := string.

(** What a Go panic carries: the value handed to [panic], or a run-time
    error (index out of range, nil dereference). *)
Inductive panic_value :=
| PanicErr (err : error)
| RuntimeError (msg : string).

Inductive Outcome (St A : Type) :=
| Panic (v : panic_value)
| Ret (a : A) (s : St).
Arguments Panic {St A} v.
Arguments Ret {St A} a s.

Definition M (St A : Type) : Type := St -> Outcome St A.

#[global] Instance M_ret St : MRet (M St) := fun A a s => Ret a s.
#[global] Instance M_bind St : MBind (M St) := fun A B f m s =>
  match m s with
  | Panic v => Panic v
  | Ret a s' => f a s'
  end.

Definition panic {St A} (v : panic_value) : M St A := fun _ => Panic v.

(** ** Slices *)

(** [s[i]]: panics when [i] is out of range. *)
Definition index {St A} (s : list A) (i : nat) : M St A :=
  match s !! i with
  | Some x => mret x
  | None => panic (RuntimeError "index out of range")
  end.

(** [s[:n]] for a slice whose capacity is its length. *)
Definition slice_to {St A} (s : list A) (n : nat) : M St (list A) :=
  if decide (n ≤ length s)%nat then mret (take n s)
  else panic (RuntimeError "slice bounds out of range").

(** ** Circuit variables and extension elements *)

(** [frontend.Variable] is [interface{}]: nil, a Go constant, or what the
    builder hands back (a wire or an expression over wires). *)
Inductive frontend_Variable :=
| VNil
| Constant (k : Z)
| Wire (i : nat)
| VAdd (a b : frontend_Variable)
| VSub (a b : frontend_Variable)
| VMul (a b : frontend_Variable).

(** [type E2 struct { A0, A1 frontend.Variable }] *)
Record E2 := mkE2 { A0 : frontend_Variable; A1 : frontend_Variable }.

(** The zero value of [E2], as [var e3 E2] creates it. *)
Definition E2_zero_value : E2 := mkE2 VNil VNil.

(** ** Hints *)

Inductive ecc_ID := UNKNOWN | BN254 | BLS12_377 | BLS12_381 | BW6_761 | BLS24_315.

(** A hint function either panics or returns, leaving the output integers
    [res] updated, together with its [error] result ([None] is nil). *)
Inductive HintOutcome :=
| HPanic (v : panic_value)
| HReturn (res : list Z) (err : option error).

(** [hint.Function]: [func(curve ecc.ID, inputs []*big.Int, res []*big.Int) error];
    the slices hold non-nil pointers, modelled by the integers they point to. *)
Definition hint_Function := ecc_ID -> list Z -> list Z -> HintOutcome.

(** The out-of-circuit library [bls12377] (gnark-crypto), used by the hints
    only: base-field elements with conversion from and to big integers, and
    the inverse and product of [bls12377.E2]. None of it can return an error. *)
Class CurveLib := {
  fp_Element : Type;
  SetBigInt : Z -> fp_Element;
  ToBigIntRegular : fp_Element -> Z;
  lib_E2_Inverse : fp_Element * fp_Element -> fp_Element * fp_Element;
  lib_E2_Mul : fp_Element * fp_Element -> fp_Element * fp_Element ->
               fp_Element * fp_Element
}.

(** The hint body runs over the contents of [res]; [*res[i] = v] panics when
    [i] is out of range. *)
Definition HintM (A : Type) : Type := M (list Z) A.

Definition write_big (i : nat) (v : Z) : HintM unit :=
  fun res => match res !! i with
             | Some _ => Ret tt (<[i := v]> res)
             | None => Panic (RuntimeError "index out of range")
             end.

Definition run_hint (m : HintM (option error)) (res : list Z) : HintOutcome :=
  match m res with
  | Panic v => HPanic v
  | Ret err r => HReturn r err
  end.

Section Hints.
Context {lib : CurveLib}.

Definition InverseE2Hint : hint_Function := fun curve inputs res =>
  run_hint (
    i0 ← index inputs 0;
    let a0 := SetBigInt i0 in
    i1 ← index inputs 1;
    let a1 := SetBigInt i1 in
    let c := lib_E2_Inverse (a0, a1) in
    write_big 0 (ToBigIntRegular (fst c));;
    write_big 1 (ToBigIntRegular (snd c));;
    mret None) res.

Definition DivE2Hint : hint_Function := fun curve inputs res =>
  run_hint (
    i0 ← index inputs 0;
    let a0 := SetBigInt i0 in
    i1 ← index inputs 1;
    let a1 := SetBigInt i1 in
    i2 ← index inputs 2;
    let b0 := SetBigInt i2 in
    i3 ← index inputs 3;
    let b1 := SetBigInt i3 in
    let c := lib_E2_Inverse (b0, b1) in
    let c := lib_E2_Mul c (a0, a1) in
    write_big 0 (ToBigIntRegular (fst c));;
    write_big 1 (ToBigIntRegular (snd c));;
    mret None) res.

End Hints.

(** ** The builder interface and the store of elements *)

(** Modelled from the spec: the interface [frontend.API] of the builder (the
    consumed capability), with the methods and signatures e2.go calls.
    [NewHint] returns the pair [(res, err)] that the Go method returns. *)
Class API (CS : Type) := {
  api_Add : frontend_Variable -> frontend_Variable -> M CS frontend_Variable;
  api_Sub : frontend_Variable -> frontend_Variable -> M CS frontend_Variable;
  api_Mul : frontend_Variable -> frontend_Variable -> M CS frontend_Variable;
  api_DivUnchecked :
    frontend_Variable -> frontend_Variable -> M CS frontend_Variable;
  api_AssertIsEqual : frontend_Variable -> frontend_Variable -> M CS unit;
  api_NewHint : hint_Function -> Z -> list frontend_Variable ->
                M CS (list frontend_Variable * option error)
}.

(** Modelled from the spec: the extension-field configuration, which holds
    the non-residue constant. The package-level value [ext] is declared
    outside e2.go; only its field [uSquare] is read here, so the gadget takes
    the configuration as a parameter. *)
Record Extension := { uSquare : Z }.

(** Pointers [*E2] are indices into the store. *)
Abbreviation ptr := nat (only parsing).

Record State (CS : Type) := mkState { heap : list E2; builder : CS }.
Arguments mkState {CS} heap builder.
Arguments heap {CS} s.
Arguments builder {CS} s.

Section Gadget.
Context {CS : Type} {api : API CS} {lib : CurveLib} (ext : Extension).

Local Abbreviation G := (M (State CS)).

(** A call on [api] acts on the builder only. *)
Definition call {A} (m : M CS A) : G A := fun s =>
  match m (builder s) with
  | Panic v => Panic v
  | Ret a c => Ret a (mkState (heap s) c)
  end.

Definition nil_dereference : panic_value :=
  RuntimeError "invalid memory address or nil pointer dereference".

(** [*e] *)
Definition load (e : ptr) : G E2 := fun s =>
  match heap s !! e with
  | Some v => Ret v s
  | None => Panic nil_dereference
  end.

(** [e.A0 = v] and [e.A1 = v] *)
Definition set_A0 (e : ptr) (v : frontend_Variable) : G unit := fun s =>
  match heap s !! e with
  | Some c => Ret tt (mkState (<[e := mkE2 v (A1 c)]> (heap s)) (builder s))
  | None => Panic nil_dereference
  end.

Definition set_A1 (e : ptr) (v : frontend_Variable) : G unit := fun s =>
  match heap s !! e with
  | Some c => Ret tt (mkState (<[e := mkE2 (A0 c) v]> (heap s)) (builder s))
  | None => Panic nil_dereference
  end.

(** [var x E2]: a fresh cell holding the zero value. *)
Definition new_E2 : G ptr := fun s =>
  Ret (length (heap s)) (mkState (heap s ++ [E2_zero_value]) (builder s)).

(** [SetZero] *)
Definition SetZero (e : ptr) : G ptr :=
  set_A0 e (Constant 0);;
  set_A1 e (Constant 0);;
  mret e.

(** [SetOne] *)
Definition SetOne (e : ptr) : G ptr :=
  set_A0 e (Constant 1);;
  set_A1 e (Constant 0);;
  mret e.

Definition assign (e : ptr) (e1 : list frontend_Variable) : G unit :=
  x0 ← index e1 0;
  set_A0 e x0;;
  x1 ← index e1 1;
  set_A1 e x1.

(** [Neg] *)
Definition Neg (e : ptr) (e1 : E2) : G ptr :=
  t ← call (api_Sub (Constant 0) (A0 e1));
  set_A0 e t;;
  t ← call (api_Sub (Constant 0) (A1 e1));
  set_A1 e t;;
  mret e.

(** [Add] *)
Definition Add (e : ptr) (e1 e2 : E2) : G ptr :=
  t ← call (api_Add (A0 e1) (A0 e2));
  set_A0 e t;;
  t ← call (api_Add (A1 e1) (A1 e2));
  set_A1 e t;;
  mret e.

(** [Double] *)
Definition Double (e : ptr) (e1 : E2) : G ptr :=
  t ← call (api_Add (A0 e1) (A0 e1));
  set_A0 e t;;
  t ← call (api_Add (A1 e1) (A1 e1));
  set_A1 e t;;
  mret e.

(** [Sub] *)
Definition Sub (e : ptr) (e1 e2 : E2) : G ptr :=
  t ← call (api_Sub (A0 e1) (A0 e2));
  set_A0 e t;;
  t ← call (api_Sub (A1 e1) (A1 e2));
  set_A1 e t;;
  mret e.

(** [Mul] *)
Definition Mul (e : ptr) (e1 e2 : E2) : G ptr :=
  l1 ← call (api_Add (A0 e1) (A1 e1));
  l2 ← call (api_Add (A0 e2) (A1 e2));
  u ← call (api_Mul l1 l2);
  ac ← call (api_Mul (A0 e1) (A0 e2));
  bd ← call (api_Mul (A1 e1) (A1 e2));
  l31 ← call (api_Add ac bd);
  t ← call (api_Sub u l31);
  set_A1 e t;;
  l41 ← call (api_Mul bd (Constant (uSquare ext)));
  t ← call (api_Add ac l41);
  set_A0 e t;;
  mret e.

(** [Square] *)
Definition Square (e : ptr) (x : E2) : G ptr :=
  c0 ← call (api_Add (A0 x) (A1 x));
  c2 ← call (api_Mul (A1 x) (Constant (uSquare ext)));
  c2 ← call (api_Add c2 (A0 x));
  c0 ← call (api_Mul c0 c2);
  c2 ← call (api_Mul (A0 x) (A1 x));
  c2 ← call (api_Add c2 c2);
  set_A1 e c2;;
  c2 ← call (api_Add c2 c2);
  t ← call (api_Add c0 c2);
  set_A0 e t;;
  mret e.

(** [DivByFp] *)
Definition DivByFp (e : ptr) (e1 : E2) (c : frontend_Variable) : G ptr :=
  t ← call (api_DivUnchecked (A0 e1) c);
  set_A0 e t;;
  t ← call (api_DivUnchecked (A1 e1) c);
  set_A1 e t;;
  mret e.

(** [MulByFp] *)
Definition MulByFp (e : ptr) (e1 : E2) (c : frontend_Variable) : G ptr :=
  t ← call (api_Mul (A0 e1) c);
  set_A0 e t;;
  t ← call (api_Mul (A1 e1) c);
  set_A1 e t;;
  mret e.

(** [MulByNonResidue] *)
Definition MulByNonResidue (e : ptr) (e1 : E2) : G ptr :=
  let x := A0 e1 in
  t ← call (api_Mul (A1 e1) (Constant (uSquare ext)));
  set_A0 e t;;
  set_A1 e x;;
  mret e.

(** [Conjugate] *)
Definition Conjugate (e : ptr) (e1 : E2) : G ptr :=
  set_A0 e (A0 e1);;
  t ← call (api_Sub (Constant 0) (A1 e1));
  set_A1 e t;;
  mret e.

(** [MustBeEqual] *)
Definition MustBeEqual (e : ptr) (other : E2) : G unit :=
  v ← load e;
  call (api_AssertIsEqual (A0 v) (A0 other));;
  v ← load e;
  call (api_AssertIsEqual (A1 v) (A1 other)).

(** [Inverse] *)
Definition Inverse (e : ptr) (e1 : E2) : G ptr :=
  '(res, err) ← call (api_NewHint InverseE2Hint 2 [A0 e1; A1 e1]);
  match err with
  | Some err => panic (PanicErr err)
  | None =>
      e3 ← new_E2;
      one ← new_E2;
      r ← slice_to res 2;
      assign e3 r;;
      SetOne one;;
      v3 ← load e3;
      Mul e3 v3 e1;;
      vone ← load one;
      MustBeEqual e3 vone;;
      r ← slice_to res 2;
      assign e r;;
      mret e
  end.

(** [DivUnchecked] *)
Definition DivUnchecked (e : ptr) (e1 e2 : E2) : G ptr :=
  '(res, err) ← call (api_NewHint DivE2Hint 2 [A0 e1; A1 e1; A0 e2; A1 e2]);
  match err with
  | Some err => panic (PanicErr err)
  | None =>
      e3 ← new_E2;
      r ← slice_to res 2;
      assign e3 r;;
      v3 ← load e3;
      Mul e3 v3 e2;;
      MustBeEqual e3 e1;;
      r ← slice_to res 2;
      assign e r;;
      mret e
  end.

End Gadget.

(** ** The constraint-system builder *)

(** Modelled from the spec: a hint request recorded by the builder ([request_hint]
    of the consumed capability): the oracle, its input variables and the
    unconstrained wires allocated for its outputs. *)
Record HintCall := mkHintCall {
  hint_fn : hint_Function;
  hint_inputs : list frontend_Variable;
  hint_outputs : list nat
}.

(** Modelled from the spec: the state of the constraint-system builder, which
    is outside e2.go: the number of wires allocated so far, the hard equality
    constraints registered so far (oldest first) and the hint requests. *)
Record ConstraintSystem := mkCS {
  nbWires : nat;
  constraints : list (frontend_Variable * frontend_Variable);
  hints : list HintCall
}.

Definition empty_CS : ConstraintSystem := mkCS 0 [] [].

(** Modelled from the spec: the arity check of [request_hint]. The request
    fails exactly on an arity mismatch; which numbers of outputs and inputs
    match is the builder's business and is left open. *)
Class HintArity := valid_arity : hint_Function -> Z -> nat -> bool.

Section Builder.
Context {HA : HintArity}.

(** Modelled from the spec: [div_unchecked(a, c)] allocates the quotient wire
    [r] and registers [r * c == a]; nothing asserts [c ≠ 0]. *)
Definition cs_DivUnchecked (a c : frontend_Variable)
  : M ConstraintSystem frontend_Variable := fun cs =>
  let r := Wire (nbWires cs) in
  Ret r (mkCS (S (nbWires cs)) (constraints cs ++ [(VMul r c, a)]) (hints cs)).

(** Modelled from the spec: [assert_equal(a, b)] registers a hard equality
    constraint. *)
Definition cs_AssertIsEqual (a b : frontend_Variable)
  : M ConstraintSystem unit := fun cs =>
  Ret tt (mkCS (nbWires cs) (constraints cs ++ [(a, b)]) (hints cs)).

(** Modelled from the spec: [request_hint(oracle, output_count, inputs...)]
    allocates [output_count] new unconstrained wires, or fails, allocating
    nothing, on an arity mismatch. *)
Definition cs_NewHint (f : hint_Function) (nbOutputs : Z)
    (inputs : list frontend_Variable)
  : M ConstraintSystem (list frontend_Variable * option error) := fun cs =>
  if valid_arity f nbOutputs (length inputs) then
    let outs := seq (nbWires cs) (Z.to_nat nbOutputs) in
    Ret (Wire <$> outs, None)
        (mkCS (nbWires cs + Z.to_nat nbOutputs)%nat (constraints cs)
              (hints cs ++ [mkHintCall f inputs outs]))
  else Ret ([], Some "invalid number of inputs"%string) cs.

(** Modelled from the spec: the builder as an implementation of [frontend.API];
    [add], [sub] and [mul] return the expression over their operands. *)
#[global] Instance builder_API : API ConstraintSystem := {|
  api_Add a b := mret (VAdd a b);
  api_Sub a b := mret (VSub a b);
  api_Mul a b := mret (VMul a b);
  api_DivUnchecked := cs_DivUnchecked;
  api_AssertIsEqual := cs_AssertIsEqual;
  api_NewHint := cs_NewHint
|}.

(** *** Witnesses *)

(** Modelled from the spec: the modulus of the base field of the circuit. *)
Variable q : Z.

(** Modelled from the spec: a witness gives every wire a value. *)
Definition assignment := nat -> Z.

(** Modelled from the spec: the value of a variable under a witness, reduced
    into the base field after every operation; constants are reduced too, and
    a nil variable counts as zero. *)
Fixpoint eval (w : assignment) (v : frontend_Variable) : Z :=
  match v with
  | VNil => 0
  | Constant k => k mod q
  | Wire i => w i mod q
  | VAdd a b => (eval w a + eval w b) mod q
  | VSub a b => (eval w a - eval w b) mod q
  | VMul a b => (eval w a * eval w b) mod q
  end.

Definition eval_E2 (w : assignment) (x : E2) : Z * Z :=
  (eval w (A0 x), eval w (A1 x)).

(** Modelled from the spec: a witness satisfies an equality constraint when
    both sides have the same value, and a constraint system when it satisfies
    every constraint registered in it. *)
Definition holds (w : assignment) (c : frontend_Variable * frontend_Variable)
  : Prop := eval w c.1 = eval w c.2.

Definition satisfied (w : assignment) (cs : ConstraintSystem) : Prop :=
  Forall (holds w) (constraints cs).

End Builder.

(** ** An executable instance of the out-of-circuit library *)

(** Modelled from the spec: the out-of-circuit field-arithmetic library of
    the two oracles, which is not part of this package. To run the hints on
    concrete inputs it is instantiated at the BLS12-377 base field: integers
    reduced modulo the modulus [p], [E2 = Fp[u]/(u² + 5)], inverse of zero
    equal to zero. *)
Module bls12377.

Definition p : Z :=
  0x01ae3a4617c510eac63b05c06ca1493b1a22d9f300f5138f1ef3622fba094800170b5d44300000008508c00000000001.

Definition E2_Inverse (x : Z * Z) : Z * Z :=
  let t0 := (x.1 * x.1 + 5 * (x.2 * x.2)) mod p in
  let t1 := Z.invmod t0 p in
  ((x.1 * t1) mod p, (- (x.2 * t1)) mod p).

Definition E2_Mul (x y : Z * Z) : Z * Z :=
  ((x.1 * y.1 - 5 * (x.2 * y.2)) mod p, (x.1 * y.2 + x.2 * y.1) mod p).

Definition lib : CurveLib := {|
  fp_Element := Z;
  SetBigInt v := v mod p;
  ToBigIntRegular x := x;
  lib_E2_Inverse := E2_Inverse;
  lib_E2_Mul := E2_Mul
|}.

(** The non-residue of the tower over [p]: [u² = -5]. *)
Definition ext : Extension := {| uSquare := -5 |}.

End bls12377.

(** The value of a variable computed in [Z], without reduction. *)
Fixpoint evalZ (w : assignment) (v : frontend_Variable) : Z :=
  match v with
  | VNil => 0
  | Constant k => k
  | Wire i => w i
  | VAdd a b => evalZ w a + evalZ w b
  | VSub a b => evalZ w a - evalZ w b
  | VMul a b => evalZ w a * evalZ w b
  end.

(** The outputs of a hint that returned without error, as a witness for
    the wires [first, first + 1, ...]; every other wire is [0]. *)
Definition hint_witness (first : nat) (o : HintOutcome) : assignment :=
  fun i => match o with
           | HReturn res None => default 0 (res !! (i - first)%nat)
           | _ => 0
           end.

(** The value of the cell [e] after a run that returned. *)
Definition stored {CS A} (o : Outcome (State CS) A) (e : ptr) : option E2 :=
  match o with
  | Ret _ s => heap s !! e
  | Panic _ => None
  end.

(** The builder state after a run that returned. *)
Definition built {CS A} (o : Outcome (State CS) A) : option CS :=
  match o with
  | Ret _ s => Some (builder s)
  | Panic _ => None
  end.

(** Two runs return their receivers, leave the same element in them and the
    builder in the same state. *)
Definition same_result {CS} (o o' : Outcome (State CS) ptr) (e e' : ptr)
  : Prop :=
  match o, o' with
  | Ret r s, Ret r' s' =>
      r = e ∧ r' = e' ∧ is_Some (heap s !! e) ∧
      heap s !! e = heap s' !! e' ∧ builder s = builder s'
  | _, _ => False
  end.

(** ** Concrete circuits, for running the gadget *)

Module Example.

(** A builder that accepts every hint with at least one output, and one that
    accepts single-output hints only. *)
Definition accepting : HintArity := fun _ nbOutputs _ => 0 <? nbOutputs.
Definition single_output : HintArity := fun _ nbOutputs _ => nbOutputs =? 1.

Definition x : E2 := mkE2 (Constant 2) (Constant 3).
Definition y : E2 := mkE2 (Constant 5) (Constant 7).

(** A store with two elements and an empty constraint system. *)
Definition s0 : State ConstraintSystem :=
  mkState [x; E2_zero_value] empty_CS.

(** The witness in which every wire is zero. *)
Definition w0 : assignment := fun _ => 0.

(** The witnesses an honest prover computes for the wires [0] and [1] with
    the two hints. *)
Definition w_inverse : assignment :=
  hint_witness 0 (InverseE2Hint (lib := bls12377.lib) BW6_761 [2; 3] [0; 0]).
Definition w_div : assignment :=
  hint_witness 0 (DivE2Hint (lib := bls12377.lib) BW6_761 [5; 7; 2; 3] [0; 0]).

(** The witness [wire 0 = 2], [wire 1 = 4]. *)
Definition w_quotient : assignment :=
  fun i => match i with O => 2 | 1%nat => 4 | _ => 0 end.

(** A third element. *)
Definition z : E2 := mkE2 (Constant 11) (Constant 13).

(** The witness [wire 0 = 2], every other wire [3]. *)
Definition w_23 : assignment := fun i => match i with O => 2 | _ => 3 end.

(** Wires [0, 1]: the inverse of [x]; wires [2, 3]: the inverse of that. *)
Definition w_involution : assignment :=
  fun i => match i with
           | 2%nat => 2
           | 3%nat => 3
           | _ => w_inverse i
           end.

(** Wires [0, 1]: the quotient of [y] by [x]; wires [2, 3]: the inverse of
    [x]. *)
Definition w_div_inverse : assignment :=
  fun i => if (i <? 2)%nat then w_div i else w_inverse (i - 2)%nat.

(** A faulty builder: its [NewHint] allocates and returns a single output,
    without error, whatever number of outputs is requested. *)
Definition truncating_API : API ConstraintSystem := {|
  api_Add a b := mret (VAdd a b);
  api_Sub a b := mret (VSub a b);
  api_Mul a b := mret (VMul a b);
  api_DivUnchecked := cs_DivUnchecked;
  api_AssertIsEqual := cs_AssertIsEqual;
  api_NewHint f nbOutputs inputs := fun cs =>
    Ret ([Wire (nbWires cs)], None)
        (mkCS (S (nbWires cs)) (constraints cs)
              (hints cs ++ [mkHintCall f inputs [nbWires cs]]))
|}.

End Example.

(** * Properties *)

Section Properties.
Context {lib : CurveLib} {HA : HintArity}.
Variable q : Z.
Variable ext : Extension.

Local Abbreviation St := (State ConstraintSystem).

Lemma eval_evalZ w v : eval q w v = evalZ w v mod q.
Proof.
  induction v as [| k | i | a IHa b IHb | a IHa b IHb | a IHa b IHb]; simpl.
  - symmetry. apply Zmod_0_l.
  - reflexivity.
  - reflexivity.
  - rewrite IHa, IHb. symmetry. apply Zplus_mod.
  - rewrite IHa, IHb. symmetry. apply Zminus_mod.
  - rewrite IHa, IHb. symmetry. apply Zmult_mod.
Qed.

Lemma eval_mod w v : eval q w v mod q = eval q w v.
Proof. rewrite eval_evalZ. apply Zmod_mod. Qed.

(** Running a method of the gadget on a valid receiver: unfold the monad,
    resolve the reads of the receiver cell, merge its successive writes. *)
Ltac run_gadget H :=
  unfold mbind, M_bind, mret, M_ret, call, set_A0, set_A1, load; simpl;
  rewrite ?H; simpl;
  repeat (rewrite list_lookup_insert_eq by (eapply lookup_lt_Some; eauto);
          simpl);
  rewrite ?list_insert_insert_eq; try reflexivity.

Lemma Neg_run (s : St) e c x :
  heap s !! e = Some c ->
  Neg e x s =
  Ret e (mkState
    (<[e := mkE2 (VSub (Constant 0) (A0 x)) (VSub (Constant 0) (A1 x))]>
       (heap s)) (builder s)).
Proof. intros H. destruct s as [h b]. simpl in *. unfold Neg. run_gadget H. Qed.

Lemma Add_run (s : St) e c x y :
  heap s !! e = Some c ->
  Add e x y s =
  Ret e (mkState
    (<[e := mkE2 (VAdd (A0 x) (A0 y)) (VAdd (A1 x) (A1 y))]> (heap s))
    (builder s)).
Proof. intros H. destruct s as [h b]. simpl in *. unfold Add. run_gadget H. Qed.

Lemma Double_run (s : St) e c x :
  heap s !! e = Some c ->
  Double e x s =
  Ret e (mkState
    (<[e := mkE2 (VAdd (A0 x) (A0 x)) (VAdd (A1 x) (A1 x))]> (heap s))
    (builder s)).
Proof.
  intros H. destruct s as [h b]. simpl in *. unfold Double. run_gadget H.
Qed.

Lemma Sub_run (s : St) e c x y :
  heap s !! e = Some c ->
  Sub e x y s =
  Ret e (mkState
    (<[e := mkE2 (VSub (A0 x) (A0 y)) (VSub (A1 x) (A1 y))]> (heap s))
    (builder s)).
Proof. intros H. destruct s as [h b]. simpl in *. unfold Sub. run_gadget H. Qed.

Lemma Mul_run (s : St) e c x y :
  heap s !! e = Some c ->
  Mul ext e x y s =
  Ret e (mkState
    (<[e := mkE2 (VAdd (VMul (A0 x) (A0 y))
                       (VMul (VMul (A1 x) (A1 y)) (Constant (uSquare ext))))
                 (VSub (VMul (VAdd (A0 x) (A1 x)) (VAdd (A0 y) (A1 y)))
                       (VAdd (VMul (A0 x) (A0 y)) (VMul (A1 x) (A1 y))))]>
       (heap s)) (builder s)).
Proof. intros H. destruct s as [h b]. simpl in *. unfold Mul. run_gadget H. Qed.

Lemma Square_run (s : St) e c x :
  heap s !! e = Some c ->
  Square ext e x s =
  Ret e (mkState
    (<[e := mkE2
         (VAdd (VMul (VAdd (A0 x) (A1 x))
                     (VAdd (VMul (A1 x) (Constant (uSquare ext))) (A0 x)))
               (VAdd (VAdd (VMul (A0 x) (A1 x)) (VMul (A0 x) (A1 x)))
                     (VAdd (VMul (A0 x) (A1 x)) (VMul (A0 x) (A1 x)))))
         (VAdd (VMul (A0 x) (A1 x)) (VMul (A0 x) (A1 x)))]>
       (heap s)) (builder s)).
Proof.
  intros H. destruct s as [h b]. simpl in *. unfold Square. run_gadget H.
Qed.

Lemma MulByFp_run (s : St) e c x k :
  heap s !! e = Some c ->
  MulByFp e x k s =
  Ret e (mkState (<[e := mkE2 (VMul (A0 x) k) (VMul (A1 x) k)]> (heap s))
                 (builder s)).
Proof.
  intros H. destruct s as [h b]. simpl in *. unfold MulByFp. run_gadget H.
Qed.

Lemma DivByFp_run (s : St) e c x k :
  heap s !! e = Some c ->
  DivByFp e x k s =
  let n := nbWires (builder s) in
  Ret e (mkState
    (<[e := mkE2 (Wire n) (Wire (S n))]> (heap s))
    (mkCS (S (S n))
          (constraints (builder s) ++
             [(VMul (Wire n) k, A0 x); (VMul (Wire (S n)) k, A1 x)])
          (hints (builder s)))).
Proof.
  intros H. destruct s as [h b]. simpl in *. unfold DivByFp.
  unfold cs_DivUnchecked. run_gadget H.
  rewrite <- app_assoc. reflexivity.
Qed.

Lemma MulByNonResidue_run (s : St) e c x :
  heap s !! e = Some c ->
  MulByNonResidue ext e x s =
  Ret e (mkState
    (<[e := mkE2 (VMul (A1 x) (Constant (uSquare ext))) (A0 x)]> (heap s))
    (builder s)).
Proof.
  intros H. destruct s as [h b]. simpl in *. unfold MulByNonResidue.
  run_gadget H.
Qed.

Lemma Conjugate_run (s : St) e c x :
  heap s !! e = Some c ->
  Conjugate e x s =
  Ret e (mkState
    (<[e := mkE2 (A0 x) (VSub (Constant 0) (A1 x))]> (heap s)) (builder s)).
Proof.
  intros H. destruct s as [h b]. simpl in *. unfold Conjugate. run_gadget H.
Qed.

Lemma load_run (s : St) e v : heap s !! e = Some v -> load e s = Ret v s.
Proof. intros H. unfold load. rewrite H. reflexivity. Qed.

Lemma assign_run (s : St) e c a b :
  heap s !! e = Some c ->
  assign e [a; b] s = Ret tt (mkState (<[e := mkE2 a b]> (heap s)) (builder s)).
Proof.
  intros H. destruct s as [h cs]. simpl in *. unfold assign, index.
  run_gadget H.
Qed.

Lemma SetOne_run (s : St) e c :
  heap s !! e = Some c ->
  SetOne e s =
  Ret e (mkState (<[e := mkE2 (Constant 1) (Constant 0)]> (heap s)) (builder s)).
Proof.
  intros H. destruct s as [h cs]. simpl in *. unfold SetOne. run_gadget H.
Qed.

Lemma SetZero_run (s : St) e c :
  heap s !! e = Some c ->
  SetZero e s =
  Ret e (mkState (<[e := mkE2 (Constant 0) (Constant 0)]> (heap s)) (builder s)).
Proof.
  intros H. destruct s as [h cs]. simpl in *. unfold SetZero. run_gadget H.
Qed.

Lemma MustBeEqual_run (s : St) e v other :
  heap s !! e = Some v ->
  MustBeEqual e other s =
  Ret tt (mkState (heap s)
    (mkCS (nbWires (builder s))
          (constraints (builder s) ++ [(A0 v, A0 other); (A1 v, A1 other)])
          (hints (builder s)))).
Proof.
  intros H. destruct s as [h cs]. simpl in *. unfold MustBeEqual.
  unfold cs_AssertIsEqual. run_gadget H. rewrite H. simpl.
  rewrite <- app_assoc. reflexivity.
Qed.

(** The store after [var e3, one E2] and the writes of a hinted operation. *)
Lemma heap_locals_lookup_l (h l : list E2) e c :
  h !! e = Some c -> (h ++ l) !! e = Some c.
Proof. intros H. rewrite lookup_app_l by (eapply lookup_lt_Some; eauto). done. Qed.

Lemma heap_locals_lookup_0 (h l : list E2) x :
  (h ++ x :: l) !! length h = Some x.
Proof. rewrite lookup_app_r by lia. rewrite Nat.sub_diag. reflexivity. Qed.

Lemma heap_locals_lookup_1 (h l : list E2) x y :
  (h ++ x :: y :: l) !! S (length h) = Some y.
Proof.
  rewrite lookup_app_r by lia.
  replace (S (length h) - length h)%nat with 1%nat by lia. reflexivity.
Qed.

Lemma heap_locals_insert_0 (h l : list E2) x v :
  <[length h := v]> (h ++ x :: l) = h ++ v :: l.
Proof. rewrite insert_app_r_alt by lia. rewrite Nat.sub_diag. reflexivity. Qed.

Lemma heap_locals_insert_1 (h l : list E2) x y v :
  <[S (length h) := v]> (h ++ x :: y :: l) = h ++ x :: v :: l.
Proof.
  rewrite insert_app_r_alt by lia.
  replace (S (length h) - length h)%nat with 1%nat by lia. reflexivity.
Qed.

Lemma heap_locals_insert_l (h l : list E2) e c v :
  h !! e = Some c -> <[e := v]> (h ++ l) = <[e := v]> h ++ l.
Proof. intros H. apply insert_app_l. eapply lookup_lt_Some; eauto. Qed.

Lemma Inverse_run (s : St) e c x :
  heap s !! e = Some c ->
  valid_arity InverseE2Hint 2 2 = true ->
  Inverse ext e x s =
  let n := nbWires (builder s) in
  let r := mkE2 (Wire n) (Wire (S n)) in
  let prod :=
    mkE2 (VAdd (VMul (A0 r) (A0 x))
               (VMul (VMul (A1 r) (A1 x)) (Constant (uSquare ext))))
         (VSub (VMul (VAdd (A0 r) (A1 r)) (VAdd (A0 x) (A1 x)))
               (VAdd (VMul (A0 r) (A0 x)) (VMul (A1 r) (A1 x)))) in
  Ret e (mkState
    (<[e := r]> (heap s) ++ [prod; mkE2 (Constant 1) (Constant 0)])
    (mkCS (n + 2)
          (constraints (builder s) ++
             [(A0 prod, Constant 1); (A1 prod, Constant 0)])
          (hints (builder s) ++
             [mkHintCall InverseE2Hint [A0 x; A1 x] [n; S n]]))).
Proof.
  intros H Hv. destruct s as [h b]. simpl in *.
  unfold Inverse, mbind, M_bind, call. simpl. unfold cs_NewHint. simpl.
  rewrite Hv. simpl.
  rewrite length_app, Nat.add_1_r, <- app_assoc. simpl.
  erewrite assign_run by apply heap_locals_lookup_0. simpl.
  rewrite heap_locals_insert_0.
  erewrite SetOne_run by apply heap_locals_lookup_1. simpl.
  rewrite heap_locals_insert_1.
  erewrite load_run by apply heap_locals_lookup_0.
  erewrite Mul_run by apply heap_locals_lookup_0. simpl.
  rewrite heap_locals_insert_0.
  erewrite load_run by apply heap_locals_lookup_1.
  erewrite MustBeEqual_run by apply heap_locals_lookup_0. simpl.
  erewrite assign_run by (simpl; apply heap_locals_lookup_l; eauto). simpl.
  erewrite heap_locals_insert_l by eauto.
  reflexivity.
Qed.

Lemma DivUnchecked_run (s : St) e c x y :
  heap s !! e = Some c ->
  valid_arity DivE2Hint 2 4 = true ->
  DivUnchecked ext e x y s =
  let n := nbWires (builder s) in
  let r := mkE2 (Wire n) (Wire (S n)) in
  let prod :=
    mkE2 (VAdd (VMul (A0 r) (A0 y))
               (VMul (VMul (A1 r) (A1 y)) (Constant (uSquare ext))))
         (VSub (VMul (VAdd (A0 r) (A1 r)) (VAdd (A0 y) (A1 y)))
               (VAdd (VMul (A0 r) (A0 y)) (VMul (A1 r) (A1 y)))) in
  Ret e (mkState
    (<[e := r]> (heap s) ++ [prod])
    (mkCS (n + 2)
          (constraints (builder s) ++ [(A0 prod, A0 x); (A1 prod, A1 x)])
          (hints (builder s) ++
             [mkHintCall DivE2Hint [A0 x; A1 x; A0 y; A1 y] [n; S n]]))).
Proof.
  intros H Hv. destruct s as [h b]. simpl in *.
  unfold DivUnchecked, mbind, M_bind, call. simpl. unfold cs_NewHint. simpl.
  rewrite Hv. simpl.
  erewrite assign_run by apply heap_locals_lookup_0. simpl.
  rewrite heap_locals_insert_0.
  erewrite load_run by apply heap_locals_lookup_0.
  erewrite Mul_run by apply heap_locals_lookup_0. simpl.
  rewrite heap_locals_insert_0.
  erewrite MustBeEqual_run by apply heap_locals_lookup_0. simpl.
  erewrite assign_run by (simpl; apply heap_locals_lookup_l; eauto). simpl.
  erewrite heap_locals_insert_l by eauto.
  reflexivity.
Qed.

(** *** Arithmetic modulo [q] *)

#[local] Existing Instances eqm_setoid Zplus_eqm Zminus_eqm Zmult_eqm Zopp_eqm.

(** Goals [a mod q = b mod q]: drop the inner reductions, replace the value
    of every variable by its unreduced value, and compare in [Z]. *)
Ltac modular :=
  rewrite ?eval_evalZ; simpl evalZ;
  match goal with
  | |- ?a mod q = ?b mod q => change (eqm q a b)
  end;
  rewrite ?Zmod_eqm.

Ltac modular_ring := modular; unfold eqm; f_equal; ring.

(** C2. For all elements [x = (x0, x1)] and [y = (y0, y1)], [Mul] on a valid
    receiver stores the element built by the three-multiplication identity
    ([u = (x0+x1)(y0+y1)], [ac = x0·y0], [bd = x1·y1], result
    [(ac + bd·uSquare, u − (ac + bd))]), leaves the builder unchanged, and under
    every witness this element has the value of the schoolbook product
    [(x0·y0 + uSquare·x1·y1, x0·y1 + x1·y0)] in the base field. *)
Theorem Mul_schoolbook (s : St) (e : ptr) (c x y : E2) (w : assignment) :
  heap s !! e = Some c ->
  ∃ r : E2,
    Mul ext e x y s = Ret e (mkState (<[e := r]> (heap s)) (builder s)) ∧
    (let u := VMul (VAdd (A0 x) (A1 x)) (VAdd (A0 y) (A1 y)) in
     let ac := VMul (A0 x) (A0 y) in
     let bd := VMul (A1 x) (A1 y) in
     r = mkE2 (VAdd ac (VMul bd (Constant (uSquare ext))))
              (VSub u (VAdd ac bd))) ∧
    eval_E2 q w r =
      ((eval q w (A0 x) * eval q w (A0 y)
        + uSquare ext * (eval q w (A1 x) * eval q w (A1 y))) mod q,
       (eval q w (A0 x) * eval q w (A1 y)
        + eval q w (A1 x) * eval q w (A0 y)) mod q).
Proof.
  intros H. eexists. split; [eapply Mul_run; eassumption|].
  split; [reflexivity|].
  unfold eval_E2; cbn [A0 A1]. f_equal.
  - modular_ring.
  - modular_ring.
Qed.

(** For every configuration, the element stored by [Square] and the one
    stored by [Mul] on twice the same operand have the same second coordinate,
    and first coordinates that differ by [(uSquare + 5)·x0·x1]. *)
Lemma Square_Mul_gap (s : St) (e : ptr) (c x : E2) (w : assignment) :
  heap s !! e = Some c ->
  ∃ rs rm : E2,
    Square ext e x s = Ret e (mkState (<[e := rs]> (heap s)) (builder s)) ∧
    Mul ext e x x s = Ret e (mkState (<[e := rm]> (heap s)) (builder s)) ∧
    eval q w (A0 rs) =
      (eval q w (A0 rm)
       + (uSquare ext + 5) * (eval q w (A0 x) * eval q w (A1 x))) mod q ∧
    eval q w (A1 rs) = eval q w (A1 rm).
Proof.
  intros H. eexists _, _.
  split; [eapply Square_run; eassumption|].
  split; [eapply Mul_run; eassumption|].
  cbn [A0 A1]. split; modular_ring.
Qed.

(** C1. With the non-residue of the BLS12-377 tower, [uSquare ≡ −5] modulo
    the base field, [Square] on a valid receiver stores an element that has,
    under every witness, the same two coefficients as the one [Mul] stores for
    [x] times [x]; both leave the builder unchanged. The last step of [Square]
    adds [4·x0·x1], which is [−(uSquare + 1)·x0·x1] for this non-residue. *)
Theorem Square_eq_Mul (s : St) (e : ptr) (c x : E2) (w : assignment) :
  heap s !! e = Some c ->
  (uSquare ext + 5) mod q = 0 ->
  ∃ rs rm : E2,
    Square ext e x s = Ret e (mkState (<[e := rs]> (heap s)) (builder s)) ∧
    Mul ext e x x s = Ret e (mkState (<[e := rm]> (heap s)) (builder s)) ∧
    eval_E2 q w rs = eval_E2 q w rm.
Proof.
  intros H Hu.
  destruct (Square_Mul_gap s e c x w H) as (rs & rm & HS & HM & H0 & H1).
  exists rs, rm. split; [exact HS|]. split; [exact HM|].
  unfold eval_E2. rewrite H1. f_equal.
  rewrite H0. rewrite <- (eval_mod w (A0 rm)) at 2.
  change (eqm q (eval q w (A0 rm)
                 + (uSquare ext + 5) * (eval q w (A0 x) * eval q w (A1 x)))
                (eval q w (A0 rm))).
  assert (Hu' : eqm q (uSquare ext + 5) 0)
    by (unfold eqm; rewrite Hu; symmetry; apply Zmod_0_l).
  rewrite Hu'. unfold eqm. f_equal. ring.
Qed.

(** C6. [MulByNonResidue] on a valid receiver stores [(x.A1 · uSquare, x.A0)]
    and leaves the builder unchanged; under every witness this element has the
    value of the product [Mul(x, (0, 1))] of [x] by the basis element [u]. *)
Theorem MulByNonResidue_eq_Mul_u (s : St) (e : ptr) (c x : E2) (w : assignment) :
  heap s !! e = Some c ->
  ∃ r rm : E2,
    MulByNonResidue ext e x s =
      Ret e (mkState (<[e := r]> (heap s)) (builder s)) ∧
    r = mkE2 (VMul (A1 x) (Constant (uSquare ext))) (A0 x) ∧
    eval_E2 q w r = ((eval q w (A1 x) * uSquare ext) mod q, eval q w (A0 x)) ∧
    Mul ext e x (mkE2 (Constant 0) (Constant 1)) s =
      Ret e (mkState (<[e := rm]> (heap s)) (builder s)) ∧
    eval_E2 q w r = eval_E2 q w rm.
Proof.
  intros H. eexists _, _.
  split; [eapply MulByNonResidue_run; eassumption|].
  split; [reflexivity|].
  split; [|split; [eapply Mul_run; eassumption|]];
    unfold eval_E2; cbn [A0 A1]; f_equal.
  - modular_ring.
  - modular_ring.
  - rewrite <- (eval_mod w (A0 x)) at 1. modular_ring.
Qed.

(** C7. [Conjugate] on a valid receiver stores [(x.A0, 0 − x.A1)]: the first
    coordinate is the operand's, the second has the opposite value; the builder
    is unchanged. Conjugating the stored element again gives an element with
    the value of [x] under every witness. *)
Theorem Conjugate_involutive (s : St) (e : ptr) (c x : E2) (w : assignment) :
  heap s !! e = Some c ->
  ∃ (r r2 : E2) (s1 : St),
    Conjugate e x s = Ret e s1 ∧
    s1 = mkState (<[e := r]> (heap s)) (builder s) ∧
    r = mkE2 (A0 x) (VSub (Constant 0) (A1 x)) ∧
    eval_E2 q w r = (eval q w (A0 x), (- eval q w (A1 x)) mod q) ∧
    Conjugate e r s1 = Ret e (mkState (<[e := r2]> (heap s)) (builder s)) ∧
    eval_E2 q w r2 = eval_E2 q w x.
Proof.
  intros H. eexists _, _, _.
  split; [eapply Conjugate_run; eassumption|].
  split; [reflexivity|]. split; [reflexivity|].
  split; [|split].
  - reflexivity.
  - erewrite Conjugate_run
      by (simpl; apply list_lookup_insert_eq; eapply lookup_lt_Some; eauto).
    simpl. rewrite list_insert_insert_eq. reflexivity.
  - unfold eval_E2; cbn [A0 A1]. f_equal.
    rewrite <- (eval_mod w (A1 x)). modular_ring.
Qed.

Lemma satisfied_app w n cs hs n' hs' l :
  satisfied q w (mkCS n' (cs ++ l) hs') ↔
  satisfied q w (mkCS n cs hs) ∧ Forall (holds q w) l.
Proof. unfold satisfied. simpl. apply Forall_app. Qed.

(** C8. [DivByFp] on a valid receiver makes one unchecked division per
    coordinate: it stores the two quotient wires [d] and registers exactly
    [d.A0 · c == x.A0] and [d.A1 · c == x.A1], nothing about [c ≠ 0] (a witness
    under which [c] and [x] are zero satisfies them). Under every witness
    satisfying these constraints, [MulByFp(d, c)] has the value of [x], and
    [d] is [x] times any inverse of [c]. *)
Theorem DivByFp_MulByFp (s : St) (e : ptr) (c0 x : E2) (c : frontend_Variable)
    (w : assignment) :
  heap s !! e = Some c0 ->
  let n := nbWires (builder s) in
  let d := mkE2 (Wire n) (Wire (S n)) in
  let divs := [(VMul (A0 d) c, A0 x); (VMul (A1 d) c, A1 x)] in
  let s1 :=
    mkState (<[e := d]> (heap s))
            (mkCS (S (S n)) (constraints (builder s) ++ divs)
                  (hints (builder s))) in
  DivByFp e x c s = Ret e s1 ∧
  (satisfied q w (builder s) -> eval q w c = 0 ->
   eval_E2 q w x = (0, 0) -> satisfied q w (builder s1)) ∧
  (satisfied q w (builder s1) ->
   ∃ m : E2,
     MulByFp e d c s1 =
       Ret e (mkState (<[e := m]> (heap s)) (builder s1)) ∧
     eval_E2 q w m = eval_E2 q w x) ∧
  (satisfied q w (builder s1) ->
   ∀ ci : Z, (eval q w c * ci) mod q = 1 mod q ->
     eval_E2 q w d =
       ((eval q w (A0 x) * ci) mod q, (eval q w (A1 x) * ci) mod q)).
Proof.
  intros H n d divs s1. split; [eapply DivByFp_run; eassumption|].
  assert (Hsat : satisfied q w (builder s1) ->
                 eval q w (VMul (A0 d) c) = eval q w (A0 x) ∧
                 eval q w (VMul (A1 d) c) = eval q w (A1 x)).
  { unfold s1. cbn [builder]. intros Hs.
    apply (satisfied_app w (nbWires (builder s)) (constraints (builder s))
             (hints (builder s))) in Hs.
    destruct Hs as [_ Hs]. unfold divs in Hs.
    inversion Hs as [|? ? Ha Hs']; subst. inversion Hs' as [|? ? Hb _]; subst.
    split; assumption. }
  split; [|split].
  - intros Hs Hc Hx. unfold s1. cbn [builder].
    apply (satisfied_app w (nbWires (builder s)) (constraints (builder s))
             (hints (builder s))).
    split; [destruct (builder s); exact Hs|].
    injection Hx as Hx0 Hx1.
    unfold divs. repeat constructor; unfold holds; cbn [fst snd eval];
      rewrite Hc, ?Hx0, ?Hx1, Z.mul_0_r; apply Zmod_0_l.
  - intros Hs. destruct (Hsat Hs) as [Ha Hb]. eexists. split.
    + erewrite MulByFp_run
        by (unfold s1; simpl; apply list_lookup_insert_eq;
            eapply lookup_lt_Some; eauto).
      unfold s1. simpl. rewrite list_insert_insert_eq. reflexivity.
    + unfold eval_E2. subst d. cbn [A0 A1] in *. rewrite Ha, Hb. reflexivity.
  - intros Hs ci Hci. destruct (Hsat Hs) as [Ha Hb].
    assert (Hinv : ∀ v t,
               eval q w (VMul v c) = eval q w t ->
               eval q w v = (eval q w t * ci) mod q).
    { intros v t Hv. rewrite <- Hv. cbn [eval].
      rewrite <- (eval_mod w v) at 1.
      change (eqm q (eval q w v) ((eval q w v * eval q w c) mod q * ci)).
      rewrite Zmod_eqm.
      transitivity (eval q w v * (eval q w c * ci)).
      - change (eqm q (eval q w c * ci) 1) in Hci. rewrite Hci.
        unfold eqm. f_equal. ring.
      - unfold eqm. f_equal. ring. }
    unfold eval_E2. cbn [A0 A1]. f_equal; apply Hinv; assumption.
Qed.

Lemma heap_receiver_lookup (h l : list E2) e c v :
  h !! e = Some c -> (<[e := v]> h ++ l) !! e = Some v.
Proof.
  intros H. apply lookup_lt_Some in H.
  rewrite lookup_app_l by (rewrite length_insert; exact H).
  apply list_lookup_insert_eq. exact H.
Qed.

Lemma satisfied_last_two w (cs : ConstraintSystem) old c1 c2 :
  constraints cs = old ++ [c1; c2] ->
  satisfied q w cs -> holds q w c1 ∧ holds q w c2.
Proof.
  unfold satisfied. intros -> Hs. apply Forall_app in Hs as [_ Hs].
  inversion Hs as [|? ? Ha Hs']; subst. inversion Hs' as [|? ? Hb _]; subst.
  split; assumption.
Qed.

(** C3. [Inverse] on a valid receiver, when the hint request is accepted,
    requests a hint with two outputs on [(x.A0, x.A1)], stores the two hinted
    wires [r] in the receiver, and registers exactly two equality constraints:
    the coordinates of the product [Mul(r, x)], computed in the local [e3],
    against those of the local [one = (1, 0)]. Under every witness satisfying
    the constraints, [Mul(Inverse(x), x)] has the value [(1, 0)]. *)
Theorem Inverse_sound (s : St) (e : ptr) (c x prod : E2) (w : assignment) :
  heap s !! e = Some c ->
  valid_arity InverseE2Hint 2 2 = true ->
  let n := nbWires (builder s) in
  let r := mkE2 (Wire n) (Wire (S n)) in
  let one := mkE2 (Constant 1) (Constant 0) in
  let s1 :=
    mkState (<[e := r]> (heap s) ++ [prod; one])
      (mkCS (n + 2)
         (constraints (builder s) ++ [(A0 prod, A0 one); (A1 prod, A1 one)])
         (hints (builder s) ++
            [mkHintCall InverseE2Hint [A0 x; A1 x] [n; S n]])) in
  Mul ext e r x s = Ret e (mkState (<[e := prod]> (heap s)) (builder s)) ->
  Inverse ext e x s = Ret e s1 ∧
  Mul ext e r x s1 = Ret e (mkState (<[e := prod]> (heap s1)) (builder s1)) ∧
  (satisfied q w (builder s1) -> eval_E2 q w prod = (1 mod q, 0)).
Proof.
  intros H Hv n r one s1 Hprod.
  erewrite Mul_run in Hprod by eassumption.
  assert (Hp : prod =
    mkE2 (VAdd (VMul (A0 r) (A0 x))
               (VMul (VMul (A1 r) (A1 x)) (Constant (uSquare ext))))
         (VSub (VMul (VAdd (A0 r) (A1 r)) (VAdd (A0 x) (A1 x)))
               (VAdd (VMul (A0 r) (A0 x)) (VMul (A1 r) (A1 x))))).
  { injection Hprod as Hh.
    apply (f_equal (fun l : list E2 => l !! e)) in Hh.
    rewrite !list_lookup_insert_eq in Hh by (eapply lookup_lt_Some; eauto).
    injection Hh as <-. reflexivity. }
  split; [|split].
  - subst s1 prod. eapply Inverse_run; eassumption.
  - subst s1 prod. eapply Mul_run. cbn [heap].
    eapply heap_receiver_lookup; eassumption.
  - intros Hs.
    eapply satisfied_last_two in Hs as [Ha Hb]; [|reflexivity].
    unfold holds in Ha, Hb. cbn [fst snd] in Ha, Hb.
    unfold eval_E2. rewrite Ha, Hb. reflexivity.
Qed.

(** C4. [DivUnchecked] on a valid receiver, when the hint request is
    accepted, requests a hint with two outputs on [(a.A0, a.A1, b.A0, b.A1)],
    stores the two hinted wires [r] in the receiver, and registers exactly two
    equality constraints: the coordinates of the product [Mul(r, b)], computed
    in the local [e3], against those of [a]. Under every witness satisfying
    the constraints, [Mul(DivUnchecked(a, b), b)] has the value of [a]. *)
Theorem DivUnchecked_sound (s : St) (e : ptr) (c a b prod : E2)
    (w : assignment) :
  heap s !! e = Some c ->
  valid_arity DivE2Hint 2 4 = true ->
  let n := nbWires (builder s) in
  let r := mkE2 (Wire n) (Wire (S n)) in
  let s1 :=
    mkState (<[e := r]> (heap s) ++ [prod])
      (mkCS (n + 2)
         (constraints (builder s) ++ [(A0 prod, A0 a); (A1 prod, A1 a)])
         (hints (builder s) ++
            [mkHintCall DivE2Hint [A0 a; A1 a; A0 b; A1 b] [n; S n]])) in
  Mul ext e r b s = Ret e (mkState (<[e := prod]> (heap s)) (builder s)) ->
  DivUnchecked ext e a b s = Ret e s1 ∧
  Mul ext e r b s1 = Ret e (mkState (<[e := prod]> (heap s1)) (builder s1)) ∧
  (satisfied q w (builder s1) -> eval_E2 q w prod = eval_E2 q w a).
Proof.
  intros H Hv n r s1 Hprod.
  erewrite Mul_run in Hprod by eassumption.
  assert (Hp : prod =
    mkE2 (VAdd (VMul (A0 r) (A0 b))
               (VMul (VMul (A1 r) (A1 b)) (Constant (uSquare ext))))
         (VSub (VMul (VAdd (A0 r) (A1 r)) (VAdd (A0 b) (A1 b)))
               (VAdd (VMul (A0 r) (A0 b)) (VMul (A1 r) (A1 b))))).
  { injection Hprod as Hh.
    apply (f_equal (fun l : list E2 => l !! e)) in Hh.
    rewrite !list_lookup_insert_eq in Hh by (eapply lookup_lt_Some; eauto).
    injection Hh as <-. reflexivity. }
  split; [|split].
  - subst s1 prod. eapply DivUnchecked_run; eassumption.
  - subst s1 prod. eapply Mul_run. cbn [heap].
    eapply heap_receiver_lookup; eassumption.
  - intros Hs.
    eapply satisfied_last_two in Hs as [Ha Hb]; [|reflexivity].
    unfold holds in Ha, Hb. cbn [fst snd] in Ha, Hb.
    unfold eval_E2. rewrite Ha, Hb. reflexivity.
Qed.

Lemma same_result_locals (h l l' : list E2) (b : ConstraintSystem)
    (e e' : ptr) (r c c' : E2) :
  h !! e = Some c -> h !! e' = Some c' ->
  same_result (Ret e (mkState (<[e := r]> h ++ l) b))
              (Ret e' (mkState (<[e' := r]> h ++ l') b)) e e'.
Proof.
  intros H H'. unfold same_result. cbn [heap builder].
  rewrite (heap_receiver_lookup h l e c r H).
  rewrite (heap_receiver_lookup h l' e' c' r H').
  repeat split; eauto.
Qed.

Lemma same_result_store (h : list E2) (b : ConstraintSystem)
    (e e' : ptr) (r c c' : E2) :
  h !! e = Some c -> h !! e' = Some c' ->
  same_result (Ret e (mkState (<[e := r]> h) b))
              (Ret e' (mkState (<[e' := r]> h) b)) e e'.
Proof.
  intros H H'.
  rewrite <- (app_nil_r (<[e := r]> h)), <- (app_nil_r (<[e' := r]> h)).
  eapply same_result_locals; eassumption.
Qed.

(** C9. Calling a method with the content [v] of its own receiver [e] as one
    or both operands (as in [e.Mul(api, *e, *e)]) returns the receiver, leaves
    in it the element that the same call leaves in a distinct receiver [e']
    given copies of the operands, and leaves the builder in the same state.
    This holds for every method of the gadget. *)
Theorem gadget_aliasing_safe (s : St) (e e' : ptr) (v c' : E2)
    (k : frontend_Variable) :
  heap s !! e = Some v ->
  heap s !! e' = Some c' ->
  e ≠ e' ->
  valid_arity InverseE2Hint 2 2 = true ->
  valid_arity DivE2Hint 2 4 = true ->
  same_result (Neg e v s) (Neg e' v s) e e' ∧
  same_result (Double e v s) (Double e' v s) e e' ∧
  same_result (Square ext e v s) (Square ext e' v s) e e' ∧
  same_result (MulByNonResidue ext e v s) (MulByNonResidue ext e' v s) e e' ∧
  same_result (Conjugate e v s) (Conjugate e' v s) e e' ∧
  same_result (DivByFp e v k s) (DivByFp e' v k s) e e' ∧
  same_result (MulByFp e v k s) (MulByFp e' v k s) e e' ∧
  same_result (Inverse ext e v s) (Inverse ext e' v s) e e' ∧
  (∀ a b : E2, a = v ∨ b = v ->
     same_result (Add e a b s) (Add e' a b s) e e' ∧
     same_result (Sub e a b s) (Sub e' a b s) e e' ∧
     same_result (Mul ext e a b s) (Mul ext e' a b s) e e' ∧
     same_result (DivUnchecked ext e a b s) (DivUnchecked ext e' a b s) e e').
Proof.
  intros H H' _ Hi Hd.
  repeat match goal with |- _ ∧ _ => split end.
  - erewrite !Neg_run by eassumption. eapply same_result_store; eassumption.
  - erewrite !Double_run by eassumption.
    eapply same_result_store; eassumption.
  - erewrite !Square_run by eassumption.
    eapply same_result_store; eassumption.
  - erewrite !MulByNonResidue_run by eassumption.
    eapply same_result_store; eassumption.
  - erewrite !Conjugate_run by eassumption.
    eapply same_result_store; eassumption.
  - erewrite !DivByFp_run by eassumption. cbv zeta.
    eapply same_result_store; eassumption.
  - erewrite !MulByFp_run by eassumption.
    eapply same_result_store; eassumption.
  - erewrite !Inverse_run by eassumption. cbv zeta.
    eapply same_result_locals; eassumption.
  - intros a b _. repeat match goal with |- _ ∧ _ => split end.
    + erewrite !Add_run by eassumption. eapply same_result_store; eassumption.
    + erewrite !Sub_run by eassumption. eapply same_result_store; eassumption.
    + erewrite !Mul_run by eassumption. eapply same_result_store; eassumption.
    + erewrite !DivUnchecked_run by eassumption. cbv zeta.
      eapply same_result_locals; eassumption.
Qed.

(** C10. On slices that are long enough (two inputs for [InverseE2Hint], four
    for [DivE2Hint], two outputs), both hint functions return, with a nil
    error, for every input, the zero element included: the two outputs are
    overwritten with whatever the library computed. For an element whose
    value is zero the constraints registered by [Inverse] cannot be satisfied,
    whatever values the hinted wires get. *)
Theorem hints_return_nil_error (curve : ecc_ID) (inputs res : list Z)
    (s : St) (e : ptr) (c x : E2) (w : assignment) :
  ((2 ≤ length inputs)%nat -> (2 ≤ length res)%nat ->
   let a := (SetBigInt (default 0 (inputs !! 0%nat)),
             SetBigInt (default 0 (inputs !! 1%nat))) in
   let r := lib_E2_Inverse a in
   InverseE2Hint curve inputs res =
     HReturn (<[1%nat := ToBigIntRegular r.2]>
                (<[0%nat := ToBigIntRegular r.1]> res)) None) ∧
  ((4 ≤ length inputs)%nat -> (2 ≤ length res)%nat ->
   let a := (SetBigInt (default 0 (inputs !! 0%nat)),
             SetBigInt (default 0 (inputs !! 1%nat))) in
   let b := (SetBigInt (default 0 (inputs !! 2%nat)),
             SetBigInt (default 0 (inputs !! 3%nat))) in
   let r := lib_E2_Mul (lib_E2_Inverse b) a in
   DivE2Hint curve inputs res =
     HReturn (<[1%nat := ToBigIntRegular r.2]>
                (<[0%nat := ToBigIntRegular r.1]> res)) None) ∧
  (1 < q -> heap s !! e = Some c ->
   valid_arity InverseE2Hint 2 2 = true ->
   eval_E2 q w x = (0, 0) ->
   ∃ s1 : St, Inverse ext e x s = Ret e s1 ∧ ¬ satisfied q w (builder s1)).
Proof.
  split; [|split].
  - intros Hi Hr.
    destruct inputs as [|i0 [|i1 ?]]; simpl in Hi; try lia.
    destruct res as [|r0 [|r1 ?]]; simpl in Hr; try lia.
    reflexivity.
  - intros Hi Hr.
    destruct inputs as [|i0 [|i1 [|i2 [|i3 ?]]]]; simpl in Hi; try lia.
    destruct res as [|r0 [|r1 ?]]; simpl in Hr; try lia.
    reflexivity.
  - intros Hq H Hv Hx. eexists. split; [eapply Inverse_run; eassumption|].
    cbv zeta. cbn [builder]. intros Hs.
    eapply satisfied_last_two in Hs as [Ha _]; [|reflexivity].
    injection Hx as Hx0 Hx1.
    unfold holds in Ha. cbn [fst snd A0 A1 eval] in Ha.
    rewrite Hx0, Hx1 in Ha.
    repeat first [ rewrite Z.mul_0_r in Ha | rewrite Z.mul_0_l in Ha
                 | rewrite Zmod_0_l in Ha | rewrite Z.add_0_l in Ha ].
    rewrite Z.mod_1_l in Ha by exact Hq. discriminate.
Qed.

(** ** Sequences of calls *)

Lemma bind_Ret {S A B} (m : M S A) (f : A -> M S B) s a s' :
  m s = Ret a s' -> (m ≫= f) s = f a s'.
Proof. intros H. unfold mbind, M_bind. rewrite H. reflexivity. Qed.

(** The receiver cell is readable: in the initial store, or after a write. *)
Ltac lookup_cell :=
  solve [ eassumption
        | cbn [heap]; apply list_lookup_insert_eq;
          eapply lookup_lt_Some; eassumption ].

Ltac run_call :=
  first
    [ erewrite (bind_Ret (load _)) by (eapply load_run; lookup_cell)
    | erewrite (bind_Ret (SetZero _)) by (eapply SetZero_run; lookup_cell)
    | erewrite (bind_Ret (SetOne _)) by (eapply SetOne_run; lookup_cell)
    | erewrite (bind_Ret (Neg _ _)) by (eapply Neg_run; lookup_cell)
    | erewrite (bind_Ret (Add _ _ _)) by (eapply Add_run; lookup_cell)
    | erewrite (bind_Ret (Double _ _)) by (eapply Double_run; lookup_cell)
    | erewrite (bind_Ret (Sub _ _ _)) by (eapply Sub_run; lookup_cell)
    | erewrite (bind_Ret (Mul _ _ _ _)) by (eapply Mul_run; lookup_cell)
    | erewrite (bind_Ret (Square _ _ _)) by (eapply Square_run; lookup_cell)
    | erewrite (bind_Ret (MulByFp _ _ _)) by (eapply MulByFp_run; lookup_cell)
    | erewrite (bind_Ret (MulByNonResidue _ _ _))
        by (eapply MulByNonResidue_run; lookup_cell)
    | erewrite (bind_Ret (Conjugate _ _)) by (eapply Conjugate_run; lookup_cell)
    | erewrite SetZero_run by lookup_cell
    | erewrite SetOne_run by lookup_cell
    | erewrite Neg_run by lookup_cell
    | erewrite Add_run by lookup_cell
    | erewrite Double_run by lookup_cell
    | erewrite Sub_run by lookup_cell
    | erewrite Mul_run by lookup_cell
    | erewrite Square_run by lookup_cell
    | erewrite MulByFp_run by lookup_cell
    | erewrite MulByNonResidue_run by lookup_cell
    | erewrite Conjugate_run by lookup_cell ];
  cbn [heap builder]; rewrite ?list_insert_insert_eq.

(** Run a sequence of calls on one receiver, then read the receiver. *)
Ltac run_calls H :=
  repeat run_call; unfold stored, built; cbn [heap builder];
  rewrite ?list_lookup_insert_eq by (eapply lookup_lt_Some; exact H).

Ltac same_value := unfold eval_E2; cbn [A0 A1]; f_equal; modular_ring.

(** X1. [e.Neg(api, x); e.Add(api, x, *e)]: an element plus its opposite has the
    value zero. *)
Theorem Add_Neg_cancel (s : St) (e : ptr) (c x : E2) (w : assignment) :
  heap s !! e = Some c ->
  let prog := Neg e x;; n ← load e; Add e x n in
  ∃ r : E2,
    stored (prog s) e = Some r ∧
    eval_E2 q w r = (0, 0).
Proof.
  intros H prog. subst prog. eexists. run_calls H.
  split; [reflexivity|].
  rewrite <- (Zmod_0_l q). same_value.
Qed.

(** X2. [Double(x)] is [Add(x, x)]: for every implementation of the API the two
    calls have the same outcome; with the builder the stored element has the
    value [(2·x0, 2·x1)]. *)
Theorem Double_is_Add_self (s : St) (e : ptr) (c x : E2) (w : assignment) :
  heap s !! e = Some c ->
  (∀ (CS : Type) (api : API CS) (s' : State CS),
     Double (api := api) e x s' = Add (api := api) e x x s') ∧
  ∃ r : E2,
    stored (Double e x s) e = Some r ∧
    eval_E2 q w r =
      ((2 * eval q w (A0 x)) mod q, (2 * eval q w (A1 x)) mod q).
Proof.
  intros H. split; [reflexivity|]. eexists. run_calls H.
  split; [reflexivity|]. same_value.
Qed.

(** X3. [Sub(x, y)] has the value of [Add(x, Neg(y))]. *)
Theorem Sub_is_Add_Neg (s : St) (e : ptr) (c x y : E2) (w : assignment) :
  heap s !! e = Some c ->
  let prog := Neg e y;; n ← load e; Add e x n in
  ∃ r1 r2 : E2,
    stored (Sub e x y s) e = Some r1 ∧ stored (prog s) e = Some r2 ∧
    eval_E2 q w r1 = eval_E2 q w r2.
Proof.
  intros H prog. subst prog. eexists _, _. run_calls H.
  split; [reflexivity|]. split; [reflexivity|]. same_value.
Qed.

(** X4. [Sub(Add(x, y), y)] has the value of [x]: subtraction undoes addition. *)
Theorem Add_Sub_round_trip (s : St) (e : ptr) (c x y : E2) (w : assignment) :
  heap s !! e = Some c ->
  let prog := Add e x y;; t ← load e; Sub e t y in
  ∃ r : E2,
    stored (prog s) e = Some r ∧
    eval_E2 q w r = eval_E2 q w x.
Proof.
  intros H prog. subst prog. eexists. run_calls H.
  split; [reflexivity|]. same_value.
Qed.

(** X5. [Add] is commutative and associative on values. *)
Theorem Add_comm_assoc (s : St) (e : ptr) (c x y z : E2) (w : assignment) :
  heap s !! e = Some c ->
  let left := Add e x y;; t ← load e; Add e t z in
  let right := Add e y z;; t ← load e; Add e x t in
  ∃ xy yx l r : E2,
    stored (Add e x y s) e = Some xy ∧ stored (Add e y x s) e = Some yx ∧
    eval_E2 q w xy = eval_E2 q w yx ∧
    stored (left s) e = Some l ∧ stored (right s) e = Some r ∧
    eval_E2 q w l = eval_E2 q w r.
Proof.
  intros H left right. subst left right. eexists _, _, _, _. run_calls H.
  split; [reflexivity|]. split; [reflexivity|]. split; [same_value|].
  split; [reflexivity|]. split; [reflexivity|]. same_value.
Qed.

(** X6. The element written by [SetZero] is neutral for [Add] and absorbing for
    [Mul]. *)
Theorem SetZero_neutral (s : St) (e : ptr) (c x : E2) (w : assignment) :
  heap s !! e = Some c ->
  let sum := SetZero e;; z ← load e; Add e x z in
  let product := SetZero e;; z ← load e; Mul ext e x z in
  ∃ r1 r2 : E2,
    stored (sum s) e = Some r1 ∧ eval_E2 q w r1 = eval_E2 q w x ∧
    stored (product s) e = Some r2 ∧ eval_E2 q w r2 = (0, 0).
Proof.
  intros H sum product. subst sum product. eexists _, _. run_calls H.
  split; [reflexivity|]. split; [same_value|]. split; [reflexivity|].
  rewrite <- (Zmod_0_l q). same_value.
Qed.

(** X7. The element written by [SetOne] is neutral for [Mul], on both sides. *)
Theorem SetOne_neutral (s : St) (e : ptr) (c x : E2) (w : assignment) :
  heap s !! e = Some c ->
  let right := SetOne e;; o ← load e; Mul ext e x o in
  let left := SetOne e;; o ← load e; Mul ext e o x in
  ∃ r1 r2 : E2,
    stored (right s) e = Some r1 ∧ eval_E2 q w r1 = eval_E2 q w x ∧
    stored (left s) e = Some r2 ∧ eval_E2 q w r2 = eval_E2 q w x.
Proof.
  intros H right left. subst right left. eexists _, _. run_calls H.
  split; [reflexivity|]. split; [same_value|]. split; [reflexivity|].
  same_value.
Qed.

(** X8. [Mul] is commutative on values. *)
Theorem Mul_comm (s : St) (e : ptr) (c x y : E2) (w : assignment) :
  heap s !! e = Some c ->
  ∃ xy yx : E2,
    stored (Mul ext e x y s) e = Some xy ∧
    stored (Mul ext e y x s) e = Some yx ∧
    eval_E2 q w xy = eval_E2 q w yx.
Proof.
  intros H. eexists _, _. run_calls H.
  split; [reflexivity|]. split; [reflexivity|]. same_value.
Qed.

(** X9. [Mul] is associative on values: [(x·y)·z] and [x·(y·z)]. *)
Theorem Mul_assoc (s : St) (e : ptr) (c x y z : E2) (w : assignment) :
  heap s !! e = Some c ->
  let left := Mul ext e x y;; t ← load e; Mul ext e t z in
  let right := Mul ext e y z;; t ← load e; Mul ext e x t in
  ∃ l r : E2,
    stored (left s) e = Some l ∧ stored (right s) e = Some r ∧
    eval_E2 q w l = eval_E2 q w r.
Proof.
  intros H left right. subst left right. eexists _, _. run_calls H.
  split; [reflexivity|]. split; [reflexivity|]. same_value.
Qed.

(** X10. [Mul] distributes over [Add]: [x·(y + z)] and [x·y + x·z]. *)
Theorem Mul_distributes_over_Add (s : St) (e : ptr) (c x y z : E2)
    (w : assignment) :
  heap s !! e = Some c ->
  let left := Add e y z;; t ← load e; Mul ext e x t in
  let right :=
    Mul ext e x y;; a ← load e; Mul ext e x z;; b ← load e; Add e a b in
  ∃ l r : E2,
    stored (left s) e = Some l ∧ stored (right s) e = Some r ∧
    eval_E2 q w l = eval_E2 q w r.
Proof.
  intros H left right. subst left right. eexists _, _. run_calls H.
  split; [reflexivity|]. split; [reflexivity|]. same_value.
Qed.

(** X11. The product of an element by its conjugate lies in the base field: its
    value is the norm [(x0² − uSquare·x1², 0)]. *)
Theorem Mul_Conjugate_norm (s : St) (e : ptr) (c x : E2) (w : assignment) :
  heap s !! e = Some c ->
  let prog := Conjugate e x;; cx ← load e; Mul ext e x cx in
  ∃ r : E2,
    stored (prog s) e = Some r ∧
    eval_E2 q w r =
      ((eval q w (A0 x) * eval q w (A0 x)
        - uSquare ext * (eval q w (A1 x) * eval q w (A1 x))) mod q, 0).
Proof.
  intros H prog. subst prog. eexists. run_calls H.
  split; [reflexivity|].
  unfold eval_E2; cbn [A0 A1]. f_equal.
  - modular_ring.
  - rewrite <- (Zmod_0_l q). modular_ring.
Qed.

(** X12. Conjugation commutes with multiplication: the conjugate of [x·y] has the
    value of the product of the conjugates. *)
Theorem Conjugate_Mul (s : St) (e : ptr) (c x y : E2) (w : assignment) :
  heap s !! e = Some c ->
  let left := Mul ext e x y;; t ← load e; Conjugate e t in
  let right :=
    Conjugate e x;; cx ← load e; Conjugate e y;; cy ← load e;
    Mul ext e cx cy in
  ∃ l r : E2,
    stored (left s) e = Some l ∧ stored (right s) e = Some r ∧
    eval_E2 q w l = eval_E2 q w r.
Proof.
  intros H left right. subst left right. eexists _, _. run_calls H.
  split; [reflexivity|]. split; [reflexivity|]. same_value.
Qed.

(** X13. [MulByNonResidue] twice is the multiplication of both coordinates by
    [uSquare], that is [MulByFp(x, uSquare)]. *)
Theorem MulByNonResidue_twice (s : St) (e : ptr) (c x : E2) (w : assignment) :
  heap s !! e = Some c ->
  let twice := MulByNonResidue ext e x;; t ← load e; MulByNonResidue ext e t in
  ∃ l r : E2,
    stored (twice s) e = Some l ∧
    stored (MulByFp e x (Constant (uSquare ext)) s) e = Some r ∧
    eval_E2 q w l = eval_E2 q w r.
Proof.
  intros H twice. subst twice. eexists _, _. run_calls H.
  split; [reflexivity|]. split; [reflexivity|]. same_value.
Qed.

(** X14. [MulByFp(x, k)] has the value of the extension product of [x] by the
    element [(k, 0)] of the base field. *)
Theorem MulByFp_is_Mul (s : St) (e : ptr) (c x : E2) (k : frontend_Variable)
    (w : assignment) :
  heap s !! e = Some c ->
  ∃ l r : E2,
    stored (MulByFp e x k s) e = Some l ∧
    stored (Mul ext e x (mkE2 k (Constant 0)) s) e = Some r ∧
    eval_E2 q w l = eval_E2 q w r.
Proof.
  intros H. eexists _, _. run_calls H.
  split; [reflexivity|]. split; [reflexivity|]. same_value.
Qed.

(** X15. For any non-residue constant, [Square] stores an element of value
    [(x0² + uSquare·x1² + (uSquare + 5)·x0·x1, 2·x0·x1)]. *)
Theorem Square_value (s : St) (e : ptr) (c x : E2) (w : assignment) :
  heap s !! e = Some c ->
  ∃ r : E2,
    stored (Square ext e x s) e = Some r ∧
    eval_E2 q w r =
      ((eval q w (A0 x) * eval q w (A0 x)
        + uSquare ext * (eval q w (A1 x) * eval q w (A1 x))
        + (uSquare ext + 5) * (eval q w (A0 x) * eval q w (A1 x))) mod q,
       (2 * (eval q w (A0 x) * eval q w (A1 x))) mod q).
Proof.
  intros H. eexists. run_calls H.
  split; [reflexivity|]. same_value.
Qed.

(** ** What the registered constraints say *)

Lemma satisfied_snoc2 w n cs hs n' hs' c1 c2 :
  satisfied q w (mkCS n' (cs ++ [c1; c2]) hs') ↔
  satisfied q w (mkCS n cs hs) ∧ holds q w c1 ∧ holds q w c2.
Proof.
  rewrite (satisfied_app w n cs hs n' hs' [c1; c2]).
  split.
  - intros [H0 H]. inversion H as [|? ? Ha H']; subst.
    inversion H' as [|? ? Hb _]; subst. auto.
  - intros (H0 & Ha & Hb). split; [exact H0|]. repeat constructor; assumption.
Qed.

Lemma satisfied_builder w (cs : ConstraintSystem) :
  satisfied q w (mkCS (nbWires cs) (constraints cs) (hints cs)) ↔
  satisfied q w cs.
Proof. destruct cs. reflexivity. Qed.

(** In [F_q[u]/(u² − β)]: when [r·b = 1], [d·b = a] forces [d = a·r]. *)
Lemma ext_cancel (β d0 d1 b0 b1 a0 a1 r0 r1 : Z) :
  eqm q (d0 * b0 + β * (d1 * b1)) a0 ->
  eqm q (d0 * b1 + d1 * b0) a1 ->
  eqm q (r0 * b0 + β * (r1 * b1)) 1 ->
  eqm q (r0 * b1 + r1 * b0) 0 ->
  eqm q d0 (a0 * r0 + β * (a1 * r1)) ∧ eqm q d1 (a0 * r1 + a1 * r0).
Proof.
  intros Ha0 Ha1 Hr0 Hr1. split.
  - transitivity (d0 * (r0 * b0 + β * (r1 * b1)) + β * d1 * (r0 * b1 + r1 * b0)).
    + rewrite Hr0, Hr1. unfold eqm. f_equal. ring.
    + transitivity ((d0 * b0 + β * (d1 * b1)) * r0
                    + β * ((d0 * b1 + d1 * b0) * r1)).
      * unfold eqm. f_equal. ring.
      * rewrite Ha0, Ha1. reflexivity.
  - transitivity (d1 * (r0 * b0 + β * (r1 * b1)) + d0 * (r0 * b1 + r1 * b0)).
    + rewrite Hr0, Hr1. unfold eqm. f_equal. ring.
    + transitivity ((d0 * b0 + β * (d1 * b1)) * r1
                    + (d0 * b1 + d1 * b0) * r0).
      * unfold eqm. f_equal. ring.
      * rewrite Ha0, Ha1. reflexivity.
Qed.

(** The two coordinates of a product stored by [Mul], as congruences. *)
Lemma Mul_value_eqm w (x y t : E2) :
  eval_E2 q w
    (mkE2 (VAdd (VMul (A0 x) (A0 y))
                (VMul (VMul (A1 x) (A1 y)) (Constant (uSquare ext))))
          (VSub (VMul (VAdd (A0 x) (A1 x)) (VAdd (A0 y) (A1 y)))
                (VAdd (VMul (A0 x) (A0 y)) (VMul (A1 x) (A1 y)))))
    = eval_E2 q w t ↔
  eqm q (evalZ w (A0 x) * evalZ w (A0 y)
         + uSquare ext * (evalZ w (A1 x) * evalZ w (A1 y))) (evalZ w (A0 t)) ∧
  eqm q (evalZ w (A0 x) * evalZ w (A1 y) + evalZ w (A1 x) * evalZ w (A0 y))
        (evalZ w (A1 t)).
Proof.
  unfold eval_E2. cbn [A0 A1]. rewrite !eval_evalZ. simpl evalZ.
  assert (E0 : evalZ w (A0 x) * evalZ w (A0 y)
               + evalZ w (A1 x) * evalZ w (A1 y) * uSquare ext
               = evalZ w (A0 x) * evalZ w (A0 y)
                 + uSquare ext * (evalZ w (A1 x) * evalZ w (A1 y))) by ring.
  assert (E1 : (evalZ w (A0 x) + evalZ w (A1 x))
               * (evalZ w (A0 y) + evalZ w (A1 y))
               - (evalZ w (A0 x) * evalZ w (A0 y)
                  + evalZ w (A1 x) * evalZ w (A1 y))
               = evalZ w (A0 x) * evalZ w (A1 y)
                 + evalZ w (A1 x) * evalZ w (A0 y)) by ring.
  rewrite E0, E1. unfold eqm. split.
  - intros Heq. injection Heq as H0 H1. split; assumption.
  - intros [H0 H1]. rewrite H0, H1. reflexivity.
Qed.

(** X16. [MustBeEqual] on a valid receiver changes neither the store nor the wires
    nor the hints; it registers two constraints, and a witness satisfies the
    resulting system exactly when it satisfied the previous one and gives the
    receiver and [other] the same value. *)
Theorem MustBeEqual_satisfied_iff (s : St) (e : ptr) (v other : E2) :
  heap s !! e = Some v ->
  ∃ s1 : St,
    MustBeEqual e other s = Ret tt s1 ∧
    heap s1 = heap s ∧
    nbWires (builder s1) = nbWires (builder s) ∧
    hints (builder s1) = hints (builder s) ∧
    length (constraints (builder s1))
      = (length (constraints (builder s)) + 2)%nat ∧
    ∀ w : assignment,
      satisfied q w (builder s1) ↔
      satisfied q w (builder s) ∧ eval_E2 q w v = eval_E2 q w other.
Proof.
  intros H. eexists. split; [eapply MustBeEqual_run; eassumption|].
  cbn [heap builder nbWires hints constraints].
  split; [reflexivity|]. split; [reflexivity|]. split; [reflexivity|].
  split; [rewrite length_app; reflexivity|].
  intros w.
  rewrite (satisfied_snoc2 w (nbWires (builder s)) _ (hints (builder s))).
  rewrite satisfied_builder. unfold holds, eval_E2. cbn [fst snd].
  split.
  - intros (H0 & Ha & Hb). split; [exact H0|]. rewrite Ha, Hb. reflexivity.
  - intros (H0 & Heq). injection Heq as Ha Hb. auto.
Qed.

(** X17. The constraints registered by [Inverse] and by [DivUnchecked] say exactly
    that the product of the hinted element by the divisor has the value
    [(1, 0)], respectively the value of the dividend: a witness satisfies the
    system after the call if and only if it satisfied the system before the
    call and gives the product that value. *)
Theorem hinted_constraints_exact (s : St) (e : ptr) (c a b : E2) :
  heap s !! e = Some c ->
  valid_arity InverseE2Hint 2 2 = true ->
  valid_arity DivE2Hint 2 4 = true ->
  let r := mkE2 (Wire (nbWires (builder s))) (Wire (S (nbWires (builder s)))) in
  ∃ prod : E2,
    stored (Mul ext e r b s) e = Some prod ∧
    (∃ s1 : St,
       Inverse ext e b s = Ret e s1 ∧ heap s1 !! e = Some r ∧
       ∀ w : assignment,
         satisfied q w (builder s1) ↔
         satisfied q w (builder s) ∧ eval_E2 q w prod = (1 mod q, 0)) ∧
    (∃ s1 : St,
       DivUnchecked ext e a b s = Ret e s1 ∧ heap s1 !! e = Some r ∧
       ∀ w : assignment,
         satisfied q w (builder s1) ↔
         satisfied q w (builder s) ∧ eval_E2 q w prod = eval_E2 q w a).
Proof.
  intros H Hi Hd r. eexists. run_calls H. split; [reflexivity|]. split.
  - eexists. split; [eapply Inverse_run; eassumption|]. cbv zeta.
    cbn [heap builder].
    split; [eapply heap_receiver_lookup; eassumption|].
    intros w.
    rewrite (satisfied_snoc2 w (nbWires (builder s)) _ (hints (builder s))).
    rewrite satisfied_builder. unfold holds, eval_E2. cbn [fst snd A0 A1].
    split.
    + intros (H0 & Ha & Hb). split; [exact H0|]. f_equal; [exact Ha|exact Hb].
    + intros (H0 & Heq). injection Heq as Ha Hb.
      split; [exact H0|]. split; [exact Ha|exact Hb].
  - eexists. split; [eapply DivUnchecked_run; eassumption|]. cbv zeta.
    cbn [heap builder].
    split; [eapply heap_receiver_lookup; eassumption|].
    intros w.
    rewrite (satisfied_snoc2 w (nbWires (builder s)) _ (hints (builder s))).
    rewrite satisfied_builder. unfold holds, eval_E2. cbn [fst snd A0 A1].
    split.
    + intros (H0 & Ha & Hb). split; [exact H0|]. f_equal; [exact Ha|exact Hb].
    + intros (H0 & Heq). injection Heq as Ha Hb.
      split; [exact H0|]. split; [exact Ha|exact Hb].
Qed.

(** The element [Mul] stores for the operands [x] and [y]. *)
Local Abbreviation product x y :=
  (mkE2 (VAdd (VMul (A0 x) (A0 y))
              (VMul (VMul (A1 x) (A1 y)) (Constant (uSquare ext))))
        (VSub (VMul (VAdd (A0 x) (A1 x)) (VAdd (A0 y) (A1 y)))
              (VAdd (VMul (A0 x) (A0 y)) (VMul (A1 x) (A1 y))))).

Local Abbreviation one := (mkE2 (Constant 1) (Constant 0)).

Lemma Mul_stored (s : St) e c x y :
  heap s !! e = Some c -> stored (Mul ext e x y s) e = Some (product x y).
Proof.
  intros H. erewrite Mul_run by eassumption. unfold stored. cbn [heap].
  apply list_lookup_insert_eq. eapply lookup_lt_Some; eassumption.
Qed.

Lemma product_comm w x y :
  eval_E2 q w (product x y) = eval_E2 q w (product y x).
Proof. same_value. Qed.

Lemma product_one_l w x : eval_E2 q w (product one x) = eval_E2 q w x.
Proof. same_value. Qed.

Lemma product_cancel w d b a r :
  eval_E2 q w (product d b) = eval_E2 q w a ->
  eval_E2 q w (product r b) = eval_E2 q w one ->
  eval_E2 q w d = eval_E2 q w (product a r).
Proof.
  intros Hd Hr. apply Mul_value_eqm in Hd as [Hd0 Hd1].
  apply Mul_value_eqm in Hr as [Hr0 Hr1]. cbn [A0 A1 evalZ] in Hr0, Hr1.
  destruct (ext_cancel (uSquare ext) _ _ _ _ _ _ _ _ Hd0 Hd1 Hr0 Hr1)
    as [H0 H1].
  unfold eval_E2. cbn [A0 A1]. rewrite !eval_evalZ. simpl evalZ.
  unfold eqm in H0, H1. rewrite H0, H1. f_equal; f_equal; ring.
Qed.

Lemma product_inverse_unique w d r b :
  eval_E2 q w (product d b) = eval_E2 q w one ->
  eval_E2 q w (product r b) = eval_E2 q w one ->
  eval_E2 q w d = eval_E2 q w r.
Proof.
  intros Hd Hr. rewrite (product_cancel w d b one r Hd Hr).
  apply product_one_l.
Qed.

Lemma product_zero_r w r b :
  eval_E2 q w b = (0, 0) -> eval_E2 q w (product r b) = (0, 0).
Proof.
  unfold eval_E2. cbn [A0 A1]. intros Hb. injection Hb as H0 H1.
  cbn [eval]. rewrite H0, H1, !Z.mul_0_r.
  repeat first [ rewrite Zmod_0_l | rewrite Z.mul_0_l | rewrite Z.add_0_r
               | rewrite Z.sub_diag ].
  reflexivity.
Qed.

(** X18. The constraints of [Inverse] determine the hinted element: under a
    witness satisfying them its value is that of any element whose product
    with [x] has the value [(1, 0)]. *)
Theorem Inverse_unique (s : St) (e : ptr) (c x : E2) :
  heap s !! e = Some c ->
  valid_arity InverseE2Hint 2 2 = true ->
  ∃ (s1 : St) (r : E2),
    Inverse ext e x s = Ret e s1 ∧ heap s1 !! e = Some r ∧
    ∀ (w : assignment) (y ym : E2),
      satisfied q w (builder s1) ->
      stored (Mul ext e y x s1) e = Some ym ->
      eval_E2 q w ym = (1 mod q, 0) ->
      eval_E2 q w r = eval_E2 q w y.
Proof.
  intros H Hv. eexists _, _. split; [eapply Inverse_run; eassumption|].
  cbv zeta. cbn [heap builder].
  split; [eapply heap_receiver_lookup; eassumption|].
  intros w y ym Hs Hym Hy.
  erewrite Mul_stored in Hym
    by (cbn [heap]; eapply heap_receiver_lookup; eassumption).
  injection Hym as <-.
  apply (satisfied_snoc2 w (nbWires (builder s)) _ (hints (builder s))) in Hs.
  destruct Hs as (_ & Ha & Hb). unfold holds in Ha, Hb. cbn [fst snd] in Ha, Hb.
  eapply product_inverse_unique; [|exact Hy].
  unfold eval_E2. f_equal; [exact Ha|exact Hb].
Qed.

(** X19. A zero divisor: when [b] has the value zero, the constraints of
    [DivUnchecked(a, b)] are satisfied exactly by the witnesses that give [a]
    the value zero, whatever value they give the hinted quotient. *)
Theorem DivUnchecked_zero_divisor (s : St) (e : ptr) (c a b : E2)
    (w : assignment) :
  heap s !! e = Some c ->
  valid_arity DivE2Hint 2 4 = true ->
  eval_E2 q w b = (0, 0) ->
  ∃ s1 : St,
    DivUnchecked ext e a b s = Ret e s1 ∧
    (satisfied q w (builder s1) ↔
     satisfied q w (builder s) ∧ eval_E2 q w a = (0, 0)).
Proof.
  intros H Hv Hb. eexists. split; [eapply DivUnchecked_run; eassumption|].
  cbv zeta. cbn [builder].
  rewrite (satisfied_snoc2 w (nbWires (builder s)) _ (hints (builder s))).
  rewrite satisfied_builder. unfold holds. cbn [fst snd].
  pose proof (product_zero_r w
                (mkE2 (Wire (nbWires (builder s)))
                      (Wire (S (nbWires (builder s))))) b Hb) as Hp.
  injection Hp as Hp0 Hp1. cbn [A0 A1] in Hp0, Hp1.
  split.
  - intros (H0 & Ha & Hb'). split; [exact H0|]. unfold eval_E2.
    f_equal; [rewrite <- Ha; exact Hp0|rewrite <- Hb'; exact Hp1].
  - intros (H0 & Heq). injection Heq as Ha Hb'.
    split; [exact H0|]. split.
    + rewrite Ha. exact Hp0.
    + rewrite Hb'. exact Hp1.
Qed.

Lemma Forall_pair {A} (P : A -> Prop) (a b : A) :
  Forall P [a; b] ↔ P a ∧ P b.
Proof.
  split.
  - intros H. inversion H as [|? ? Ha H']; subst.
    inversion H' as [|? ? Hb _]; subst. auto.
  - intros [Ha Hb]. repeat constructor; assumption.
Qed.

(** The receiver cell is readable after any number of writes and local
    allocations. *)
Ltac lookup_receiver :=
  cbn [heap];
  first [ eassumption
        | eapply heap_receiver_lookup; lookup_receiver
        | apply list_lookup_insert_eq; eapply lookup_lt_Some; lookup_receiver ].

(** X20. [e.Inverse(api, x); e.Inverse(api, *e)]: under a witness satisfying the
    constraints of both calls, the inverse of the inverse has the value of
    [x]. *)
Theorem Inverse_involutive (s : St) (e : ptr) (c x : E2) :
  heap s !! e = Some c ->
  valid_arity InverseE2Hint 2 2 = true ->
  let prog := Inverse ext e x;; r ← load e; Inverse ext e r in
  ∃ (s2 : St) (r2 : E2),
    prog s = Ret e s2 ∧ heap s2 !! e = Some r2 ∧
    ∀ w : assignment,
      satisfied q w (builder s2) -> eval_E2 q w r2 = eval_E2 q w x.
Proof.
  intros H Hv prog. subst prog. eexists _, _.
  erewrite (bind_Ret (Inverse _ _ _)) by (eapply Inverse_run; eassumption).
  cbv zeta.
  erewrite (bind_Ret (load _)) by (eapply load_run; lookup_receiver).
  erewrite Inverse_run by (first [lookup_receiver | exact Hv]).
  cbv zeta. cbn [heap builder nbWires constraints hints].
  split; [reflexivity|]. split; [lookup_receiver|].
  intros w Hs.
  unfold satisfied in Hs. cbn [builder constraints] in Hs.
  rewrite !Forall_app, !Forall_pair in Hs.
  destruct Hs as ((_ & Ha1 & Hb1) & Ha2 & Hb2).
  unfold holds in Ha1, Hb1, Ha2, Hb2. cbn [fst snd A0 A1] in Ha1, Hb1, Ha2, Hb2.
  eapply (product_inverse_unique w _ x
            (mkE2 (Wire (nbWires (builder s)))
                  (Wire (S (nbWires (builder s)))))).
  - unfold eval_E2. cbn [A0 A1]. f_equal; [exact Ha2|exact Hb2].
  - rewrite product_comm. unfold eval_E2. cbn [A0 A1].
    f_equal; [exact Ha1|exact Hb1].
Qed.

(** X21. [DivUnchecked(a, b)] agrees with [Mul(a, Inverse(b))]: under a witness
    satisfying the constraints of the division and of the inversion, the
    quotient has the value of the product of [a] by the inverse of [b]. *)
Theorem DivUnchecked_is_Mul_Inverse (s : St) (e : ptr) (c a b : E2) :
  heap s !! e = Some c ->
  valid_arity InverseE2Hint 2 2 = true ->
  valid_arity DivE2Hint 2 4 = true ->
  let prog :=
    DivUnchecked ext e a b;; d ← load e;
    Inverse ext e b;; r ← load e;
    Mul ext e a r;; m ← load e;
    mret (d, m) in
  ∃ (s3 : St) (d m : E2),
    prog s = Ret (d, m) s3 ∧
    ∀ w : assignment,
      satisfied q w (builder s3) -> eval_E2 q w d = eval_E2 q w m.
Proof.
  intros H Hi Hd prog. subst prog. eexists _, _, _.
  erewrite (bind_Ret (DivUnchecked _ _ _ _))
    by (eapply DivUnchecked_run; eassumption).
  cbv zeta.
  erewrite (bind_Ret (load _)) by (eapply load_run; lookup_receiver).
  erewrite (bind_Ret (Inverse _ _ _))
    by (eapply Inverse_run; first [lookup_receiver | exact Hi]).
  cbv zeta. cbn [heap builder nbWires constraints hints].
  erewrite (bind_Ret (load _)) by (eapply load_run; lookup_receiver).
  erewrite (bind_Ret (Mul _ _ _ _)) by (eapply Mul_run; lookup_receiver).
  cbn [heap builder].
  erewrite (bind_Ret (load _)) by (eapply load_run; lookup_receiver).
  split; [reflexivity|].
  intros w Hs. cbn [builder] in Hs.
  unfold satisfied in Hs. cbn [builder constraints] in Hs.
  rewrite !Forall_app, !Forall_pair in Hs.
  destruct Hs as ((_ & Ha1 & Hb1) & Ha2 & Hb2).
  unfold holds in Ha1, Hb1, Ha2, Hb2. cbn [fst snd A0 A1] in Ha1, Hb1, Ha2, Hb2.
  eapply product_cancel.
  - unfold eval_E2. cbn [A0 A1]. f_equal; [exact Ha1|exact Hb1].
  - unfold eval_E2. cbn [A0 A1]. f_equal; [exact Ha2|exact Hb2].
Qed.

(** X22. [e.MulByFp(api, x, k); e.DivByFp(api, *e, k)]: when [k] has an inverse in
    the base field, every witness satisfying the constraints of the division
    gives the quotient the value of [x]. *)
Theorem MulByFp_DivByFp_round_trip (s : St) (e : ptr) (c x : E2)
    (k : frontend_Variable) :
  heap s !! e = Some c ->
  let prog := MulByFp e x k;; t ← load e; DivByFp e t k in
  ∃ (s1 : St) (d : E2),
    prog s = Ret e s1 ∧ heap s1 !! e = Some d ∧
    ∀ (w : assignment) (ki : Z),
      satisfied q w (builder s1) ->
      (eval q w k * ki) mod q = 1 mod q ->
      eval_E2 q w d = eval_E2 q w x.
Proof.
  intros H prog. subst prog. eexists _, _.
  erewrite (bind_Ret (MulByFp _ _ _)) by (eapply MulByFp_run; eassumption).
  erewrite (bind_Ret (load _)) by (eapply load_run; lookup_receiver).
  erewrite DivByFp_run by lookup_receiver.
  cbv zeta. cbn [heap builder A0 A1].
  split; [reflexivity|]. split; [lookup_receiver|].
  intros w ki Hs Hk.
  apply (satisfied_snoc2 w (nbWires (builder s)) _ (hints (builder s))) in Hs.
  destruct Hs as (_ & Ha & Hb). unfold holds in Ha, Hb. cbn [fst snd] in Ha, Hb.
  assert (Hcancel : ∀ u v : frontend_Variable,
             eval q w (VMul u k) = eval q w (VMul v k) ->
             eval q w u = eval q w v).
  { intros u v Huv. rewrite !eval_evalZ in Huv. rewrite eval_evalZ in Hk.
    rewrite !eval_evalZ. simpl evalZ in Huv.
    change (eqm q (evalZ w u * evalZ w k) (evalZ w v * evalZ w k)) in Huv.
    change (eqm q (evalZ w k mod q * ki) 1) in Hk. rewrite Zmod_eqm in Hk.
    change (eqm q (evalZ w u) (evalZ w v)).
    transitivity (evalZ w u * evalZ w k * ki).
    - transitivity (evalZ w u * (evalZ w k * ki)).
      + rewrite Hk. unfold eqm. f_equal. ring.
      + unfold eqm. f_equal. ring.
    - rewrite Huv. transitivity (evalZ w v * (evalZ w k * ki)).
      + unfold eqm. f_equal. ring.
      + rewrite Hk. unfold eqm. f_equal. ring. }
  unfold eval_E2. cbn [A0 A1]. f_equal; apply Hcancel; assumption.
Qed.

(** ** Receivers and the store *)

(** X23. A method called on a pointer that is not a cell of the store (a nil
    receiver) panics with a nil dereference; no state is returned. *)
Theorem nil_receiver_panics (s : St) (e : ptr) (x y : E2)
    (k : frontend_Variable) :
  heap s !! e = None ->
  SetZero e s = Panic nil_dereference ∧
  SetOne e s = Panic nil_dereference ∧
  Neg e x s = Panic nil_dereference ∧
  Add e x y s = Panic nil_dereference ∧
  Double e x s = Panic nil_dereference ∧
  Sub e x y s = Panic nil_dereference ∧
  Mul ext e x y s = Panic nil_dereference ∧
  Square ext e x s = Panic nil_dereference ∧
  DivByFp e x k s = Panic nil_dereference ∧
  MulByFp e x k s = Panic nil_dereference ∧
  MulByNonResidue ext e x s = Panic nil_dereference ∧
  Conjugate e x s = Panic nil_dereference ∧
  MustBeEqual e y s = Panic nil_dereference.
Proof.
  intros H. destruct s as [h b]. simpl in H.
  repeat split;
    unfold SetZero, SetOne, Neg, Add, Double, Sub, Mul, Square, DivByFp,
      MulByFp, MulByNonResidue, Conjugate, MustBeEqual, mbind, M_bind, mret,
      M_ret, call, set_A0, set_A1, load, cs_DivUnchecked; simpl;
    rewrite H; reflexivity.
Qed.

(** X24. No method changes a cell other than its receiver, and none shrinks the
    store: the cells that existed before the call, the receiver apart, hold
    the same elements after it. [Inverse] and [DivUnchecked] add the cells of
    their local variables at the end of the store. *)
Theorem methods_write_only_receiver (s : St) (e e' : ptr) (c c' x y : E2)
    (k : frontend_Variable) :
  heap s !! e = Some c ->
  heap s !! e' = Some c' ->
  e ≠ e' ->
  valid_arity InverseE2Hint 2 2 = true ->
  valid_arity DivE2Hint 2 4 = true ->
  Forall (λ o : Outcome St ptr, stored o e' = Some c')
    [ SetZero e s; SetOne e s; Neg e x s; Add e x y s; Double e x s;
      Sub e x y s; Mul ext e x y s; Square ext e x s; DivByFp e x k s;
      MulByFp e x k s; MulByNonResidue ext e x s; Conjugate e x s;
      Inverse ext e x s; DivUnchecked ext e x y s ] ∧
  stored (MustBeEqual e y s) e' = Some c'.
Proof.
  intros H H' Hne Hi Hd.
  assert (Hkeep : ∀ (r : E2) (l : list E2),
             (<[e := r]> (heap s) ++ l) !! e' = Some c').
  { intros r l. rewrite lookup_app_l
      by (rewrite length_insert; eapply lookup_lt_Some; eassumption).
    rewrite list_lookup_insert_ne by exact Hne. exact H'. }
  assert (Hkeep0 : ∀ r : E2, <[e := r]> (heap s) !! e' = Some c').
  { intros r. rewrite list_lookup_insert_ne by exact Hne. exact H'. }
  split.
  - repeat constructor.
    + erewrite SetZero_run by eassumption. apply Hkeep0.
    + erewrite SetOne_run by eassumption. apply Hkeep0.
    + erewrite Neg_run by eassumption. apply Hkeep0.
    + erewrite Add_run by eassumption. apply Hkeep0.
    + erewrite Double_run by eassumption. apply Hkeep0.
    + erewrite Sub_run by eassumption. apply Hkeep0.
    + erewrite Mul_run by eassumption. apply Hkeep0.
    + erewrite Square_run by eassumption. apply Hkeep0.
    + erewrite DivByFp_run by eassumption. apply Hkeep0.
    + erewrite MulByFp_run by eassumption. apply Hkeep0.
    + erewrite MulByNonResidue_run by eassumption. apply Hkeep0.
    + erewrite Conjugate_run by eassumption. apply Hkeep0.
    + erewrite Inverse_run by eassumption. apply Hkeep.
    + erewrite DivUnchecked_run by eassumption. apply Hkeep.
  - erewrite MustBeEqual_run by eassumption. exact H'.
Qed.

(** ** The hint functions on short and long slices *)

(** X25. With fewer than two inputs (four for [DivE2Hint]) or fewer than two
    outputs, the hint functions panic with an index out of range; they never
    return an error value. *)
Theorem hints_panic_on_short_slices (curve : ecc_ID) (inputs res : list Z) :
  ((length inputs < 2 ∨ length res < 2)%nat ->
   InverseE2Hint curve inputs res
     = HPanic (RuntimeError "index out of range")) ∧
  ((length inputs < 4 ∨ length res < 2)%nat ->
   DivE2Hint curve inputs res = HPanic (RuntimeError "index out of range")).
Proof.
  split; intros Hlen.
  - destruct inputs as [|i0 [|i1 ?]]; try reflexivity.
    destruct res as [|r0 [|r1 ?]]; try reflexivity.
    simpl in Hlen. lia.
  - destruct inputs as [|i0 [|i1 [|i2 [|i3 ?]]]]; try reflexivity.
    destruct res as [|r0 [|r1 ?]]; try reflexivity.
    simpl in Hlen. lia.
Qed.

(** X26. On long enough slices the hint functions overwrite the first two outputs
    and leave the others as they are; the two values written depend only on
    the first two inputs (four for [DivE2Hint]): not on the curve identifier,
    nor on further inputs, nor on the previous content of the outputs. *)
Theorem hints_overwrite_two_outputs (curve : ecc_ID) (inputs res : list Z) :
  (2 ≤ length res)%nat ->
  ((2 ≤ length inputs)%nat ->
   ∃ o0 o1 : Z,
     InverseE2Hint curve inputs res = HReturn (o0 :: o1 :: drop 2 res) None ∧
     ∀ (curve' : ecc_ID) (p0 p1 : Z) (more : list Z),
       InverseE2Hint curve' (take 2 inputs) (p0 :: p1 :: more)
         = HReturn (o0 :: o1 :: more) None) ∧
  ((4 ≤ length inputs)%nat ->
   ∃ o0 o1 : Z,
     DivE2Hint curve inputs res = HReturn (o0 :: o1 :: drop 2 res) None ∧
     ∀ (curve' : ecc_ID) (p0 p1 : Z) (more : list Z),
       DivE2Hint curve' (take 4 inputs) (p0 :: p1 :: more)
         = HReturn (o0 :: o1 :: more) None).
Proof.
  intros Hr. destruct res as [|r0 [|r1 res]]; simpl in Hr; try lia.
  split; intros Hi.
  - destruct inputs as [|i0 [|i1 ?]]; simpl in Hi; try lia.
    eexists _, _. split; reflexivity.
  - destruct inputs as [|i0 [|i1 [|i2 [|i3 ?]]]]; simpl in Hi; try lia.
    eexists _, _. split; reflexivity.
Qed.

End Properties.

(** *** Failure of the hint request, for any implementation of the API *)

Section HintFailure.
Context {CS : Type} {api : API CS} {lib : CurveLib} (ext : Extension).

(** C5. When the hint request of [Inverse] or of [DivUnchecked] returns an
    error, the method panics with that error, whatever outputs and builder
    state the failed request returned: nothing is allocated or stored, no
    constraint is registered, and no element is returned. *)
Theorem hint_failure_panics (s : State CS) (e : ptr) (x y : E2)
    (res : list frontend_Variable) (err : error) (cs' : CS) :
  (api_NewHint InverseE2Hint 2 [A0 x; A1 x] (builder s) =
     Ret (res, Some err) cs' ->
   Inverse ext e x s = Panic (PanicErr err)) ∧
  (api_NewHint DivE2Hint 2 [A0 x; A1 x; A0 y; A1 y] (builder s) =
     Ret (res, Some err) cs' ->
   DivUnchecked ext e x y s = Panic (PanicErr err)).
Proof.
  split; intros H.
  - unfold Inverse, mbind, M_bind, call. rewrite H. reflexivity.
  - unfold DivUnchecked, mbind, M_bind, call. rewrite H. reflexivity.
Qed.

(** X27. When the hint request returns no error but fewer than two outputs (in a
    slice without spare capacity), [Inverse] and [DivUnchecked] panic on
    [res[:2]] before any constraint is registered. *)
Theorem short_hint_output_panics (s : State CS) (e : ptr) (x y : E2)
    (res : list frontend_Variable) (cs' : CS) :
  (length res < 2)%nat ->
  (api_NewHint InverseE2Hint 2 [A0 x; A1 x] (builder s) = Ret (res, None) cs' ->
   Inverse ext e x s = Panic (RuntimeError "slice bounds out of range")) ∧
  (api_NewHint DivE2Hint 2 [A0 x; A1 x; A0 y; A1 y] (builder s)
     = Ret (res, None) cs' ->
   DivUnchecked ext e x y s
     = Panic (RuntimeError "slice bounds out of range")).
Proof.
  intros Hlen. split; intros H.
  - unfold Inverse, mbind, M_bind, call. rewrite H. simpl.
    unfold slice_to. destruct (decide (2 ≤ length res)%nat); [lia|].
    reflexivity.
  - unfold DivUnchecked, mbind, M_bind, call. rewrite H. simpl.
    unfold slice_to. destruct (decide (2 ≤ length res)%nat); [lia|].
    reflexivity.
Qed.

End HintFailure.

(** * The theorems on concrete circuits over the BLS12-377 base field *)

Section Witnesses.
Import Example.

Local Abbreviation p := bls12377.p.
Local Abbreviation ext := bls12377.ext.

Lemma Mul_schoolbook_witness :
  ∃ r : E2,
    stored (Mul (api := builder_API (HA := accepting)) ext 1%nat x y s0) 1%nat
      = Some r ∧
    eval_E2 p w0 r = ((2 * 5 + -5 * (3 * 7)) mod p, 2 * 7 + 3 * 5).
Proof.
  destruct (Mul_schoolbook (HA := accepting) p ext s0 1%nat E2_zero_value
              x y w0 eq_refl) as (r & Hrun & _ & Hev).
  exists r. split.
  - rewrite Hrun. reflexivity.
  - rewrite Hev. vm_compute. reflexivity.
Defined.

Lemma Square_eq_Mul_witness :
  ∃ rs rm : E2,
    stored (Square (api := builder_API (HA := accepting)) ext 1%nat x s0) 1%nat
      = Some rs ∧
    stored (Mul (api := builder_API (HA := accepting)) ext 1%nat x x s0) 1%nat
      = Some rm ∧
    eval_E2 p w0 rs = eval_E2 p w0 rm.
Proof.
  destruct (Square_eq_Mul (HA := accepting) p ext s0 1%nat E2_zero_value
              x w0 eq_refl eq_refl) as (rs & rm & HS & HM & Hev).
  exists rs, rm. split; [rewrite HS; reflexivity|].
  split; [rewrite HM; reflexivity|exact Hev].
Defined.

(** Constraints of a concrete system under a concrete witness. *)
Ltac check_satisfied :=
  unfold satisfied; cbv [s0 empty_CS builder constraints app];
  repeat (constructor; [vm_compute; reflexivity|]); constructor.

Lemma Inverse_sound_witness :
  ∃ (cs : ConstraintSystem) (prod : E2),
    built (Inverse (api := builder_API (HA := accepting))
             (lib := bls12377.lib) ext 1%nat x s0) = Some cs ∧
    satisfied p w_inverse cs ∧
    stored (Mul (api := builder_API (HA := accepting)) ext 1%nat
              (mkE2 (Wire 0) (Wire 1)) x s0) 1%nat = Some prod ∧
    eval_E2 p w_inverse prod = (1, 0).
Proof.
  destruct (Inverse_sound (lib := bls12377.lib) (HA := accepting) p ext s0
              1%nat E2_zero_value x _ w_inverse eq_refl eq_refl
              (Mul_run (HA := accepting) ext s0 1%nat E2_zero_value
                 (mkE2 (Wire 0) (Wire 1)) x eq_refl))
    as (Hrun & _ & Hsound).
  eexists _, _. split; [rewrite Hrun; reflexivity|].
  split; [check_satisfied|].
  split; [reflexivity|].
  apply Hsound. check_satisfied.
Defined.

(** With another non-residue, here [u² = -1], [Square] and [Mul] disagree on
    [x = (1, 1)]: the first coordinates are [4] and [0]. *)
Lemma Square_differs_for_another_non_residue :
  let one_one := mkE2 (Constant 1) (Constant 1) in
  let other := {| uSquare := -1 |} in
  ∃ rs rm : E2,
    stored (Square (api := builder_API (HA := accepting)) other 1%nat
              one_one s0) 1%nat = Some rs ∧
    stored (Mul (api := builder_API (HA := accepting)) other 1%nat
              one_one one_one s0) 1%nat = Some rm ∧
    eval_E2 p w0 rs = (4, 2) ∧ eval_E2 p w0 rm = (0, 2).
Proof.
  eexists _, _. split; [reflexivity|]. split; [reflexivity|].
  split; vm_compute; reflexivity.
Qed.

Lemma DivUnchecked_sound_witness :
  ∃ (cs : ConstraintSystem) (prod : E2),
    built (DivUnchecked (api := builder_API (HA := accepting))
             (lib := bls12377.lib) ext 1%nat y x s0) = Some cs ∧
    satisfied p w_div cs ∧
    stored (Mul (api := builder_API (HA := accepting)) ext 1%nat
              (mkE2 (Wire 0) (Wire 1)) x s0) 1%nat = Some prod ∧
    eval_E2 p w_div prod = (5, 7).
Proof.
  destruct (DivUnchecked_sound (lib := bls12377.lib) (HA := accepting) p ext
              s0 1%nat E2_zero_value y x _ w_div eq_refl eq_refl
              (Mul_run (HA := accepting) ext s0 1%nat E2_zero_value
                 (mkE2 (Wire 0) (Wire 1)) x eq_refl))
    as (Hrun & _ & Hsound).
  eexists _, _. split; [rewrite Hrun; reflexivity|].
  split; [check_satisfied|].
  split; [reflexivity|].
  etransitivity; [apply Hsound; check_satisfied|].
  vm_compute. reflexivity.
Defined.

Lemma hint_failure_panics_witness :
  Inverse (api := builder_API (HA := single_output)) (lib := bls12377.lib)
    ext 1%nat x s0 = Panic (PanicErr "invalid number of inputs"%string) ∧
  DivUnchecked (api := builder_API (HA := single_output))
    (lib := bls12377.lib) ext 1%nat y x s0
    = Panic (PanicErr "invalid number of inputs"%string).
Proof.
  destruct (hint_failure_panics (api := builder_API (HA := single_output))
              (lib := bls12377.lib) ext s0 1%nat x x [] 
              "invalid number of inputs"%string empty_CS) as [Hi _].
  destruct (hint_failure_panics (api := builder_API (HA := single_output))
              (lib := bls12377.lib) ext s0 1%nat y x [] 
              "invalid number of inputs"%string empty_CS) as [_ Hd].
  split; [apply Hi; reflexivity | apply Hd; reflexivity].
Defined.

Lemma MulByNonResidue_eq_Mul_u_witness :
  ∃ r rm : E2,
    stored (MulByNonResidue (api := builder_API (HA := accepting)) ext 1%nat
              x s0) 1%nat = Some r ∧
    stored (Mul (api := builder_API (HA := accepting)) ext 1%nat x
              (mkE2 (Constant 0) (Constant 1)) s0) 1%nat = Some rm ∧
    eval_E2 p w0 r = ((3 * -5) mod p, 2) ∧
    eval_E2 p w0 rm = ((3 * -5) mod p, 2).
Proof.
  destruct (MulByNonResidue_eq_Mul_u (HA := accepting) p ext s0 1%nat
              E2_zero_value x w0 eq_refl)
    as (r & rm & Hr & _ & Hev & Hm & Heq).
  exists r, rm. split; [rewrite Hr; reflexivity|].
  split; [rewrite Hm; reflexivity|].
  rewrite <- Heq, Hev. split; vm_compute; reflexivity.
Defined.

Lemma Conjugate_involutive_witness :
  ∃ (r r2 : E2) (s1 : State ConstraintSystem),
    Conjugate (api := builder_API (HA := accepting)) 1%nat x s0 = Ret 1%nat s1 ∧
    eval_E2 p w0 r = (2, p - 3) ∧
    stored (Conjugate (api := builder_API (HA := accepting)) 1%nat r s1) 1%nat
      = Some r2 ∧
    eval_E2 p w0 r2 = (2, 3).
Proof.
  destruct (Conjugate_involutive (HA := accepting) p s0 1%nat E2_zero_value
              x w0 eq_refl)
    as (r & r2 & s1 & Hrun & _ & _ & Hev & Hrun2 & Hev2).
  exists r, r2, s1. split; [exact Hrun|].
  split; [rewrite Hev; vm_compute; reflexivity|].
  split; [rewrite Hrun2; reflexivity|].
  rewrite Hev2. vm_compute. reflexivity.
Defined.

Lemma DivByFp_MulByFp_witness :
  ∃ (s1 : State ConstraintSystem) (m : E2),
    DivByFp (api := builder_API (HA := accepting)) 1%nat
      (mkE2 (Constant 10) (Constant 20)) (Constant 5) s0 = Ret 1%nat s1 ∧
    satisfied p w_quotient (builder s1) ∧
    stored (MulByFp (api := builder_API (HA := accepting)) 1%nat
              (mkE2 (Wire 0) (Wire 1)) (Constant 5) s1) 1%nat = Some m ∧
    eval_E2 p w_quotient m = (10, 20) ∧
    eval_E2 p w_quotient (mkE2 (Wire 0) (Wire 1)) = (2, 4).
Proof.
  destruct (DivByFp_MulByFp (HA := accepting) p s0 1%nat E2_zero_value
              (mkE2 (Constant 10) (Constant 20)) (Constant 5) w_quotient
              eq_refl) as (Hrun & _ & Hrt & Hq).
  match type of Hrt with
  | ?A -> _ => assert (Hsat : A) by check_satisfied
  end.
  destruct (Hrt Hsat) as (m & Hm & Hev).
  eexists _, m. split; [exact Hrun|]. split; [exact Hsat|].
  split; [exact (f_equal (fun o => stored o 1%nat) Hm)|].
  split.
  - rewrite Hev. vm_compute. reflexivity.
  - etransitivity;
      [apply (Hq Hsat (Z.invmod 5 p)); vm_compute; reflexivity|].
    vm_compute. reflexivity.
Defined.

Lemma gadget_aliasing_safe_witness :
  same_result
    (Mul (api := builder_API (HA := accepting)) ext 0%nat x x s0)
    (Mul (api := builder_API (HA := accepting)) ext 1%nat x x s0) 0%nat 1%nat ∧
  same_result
    (MulByNonResidue (api := builder_API (HA := accepting)) ext 0%nat x s0)
    (MulByNonResidue (api := builder_API (HA := accepting)) ext 1%nat x s0)
    0%nat 1%nat ∧
  same_result
    (Square (api := builder_API (HA := accepting)) ext 0%nat x s0)
    (Square (api := builder_API (HA := accepting)) ext 1%nat x s0)
    0%nat 1%nat.
Proof.
  destruct (gadget_aliasing_safe (lib := bls12377.lib) (HA := accepting) ext
              s0 0%nat 1%nat x E2_zero_value (Constant 5)
              eq_refl eq_refl ltac:(discriminate) eq_refl eq_refl)
    as (_ & _ & Hsq & Hnr & _ & _ & _ & _ & Hbin).
  destruct (Hbin x x (or_introl eq_refl)) as (_ & _ & Hmul & _).
  split; [exact Hmul|]. split; [exact Hnr|exact Hsq].
Defined.

Lemma hints_return_nil_error_witness :
  InverseE2Hint (lib := bls12377.lib) BW6_761 [0; 0] [7; 7]
    = HReturn [0; 0] None ∧
  DivE2Hint (lib := bls12377.lib) BW6_761 [5; 7; 0; 0] [7; 7]
    = HReturn [0; 0] None ∧
  ∃ s1 : State ConstraintSystem,
    Inverse (api := builder_API (HA := accepting)) (lib := bls12377.lib)
      ext 1%nat (mkE2 (Constant 0) (Constant 0)) s0 = Ret 1%nat s1 ∧
    ¬ satisfied p w0 (builder s1).
Proof.
  destruct (hints_return_nil_error (lib := bls12377.lib) (HA := accepting)
              p ext BW6_761 [0; 0] [7; 7] s0 1%nat E2_zero_value
              (mkE2 (Constant 0) (Constant 0)) w0) as (Hi & _ & Hrej).
  destruct (hints_return_nil_error (lib := bls12377.lib) (HA := accepting)
              p ext BW6_761 [5; 7; 0; 0] [7; 7] s0 1%nat E2_zero_value
              (mkE2 (Constant 0) (Constant 0)) w0) as (_ & Hd & _).
  split; [|split].
  - rewrite Hi by (simpl; lia). vm_compute. reflexivity.
  - rewrite Hd by (simpl; lia). vm_compute. reflexivity.
  - apply Hrej; reflexivity.
Defined.

End Witnesses.

(** * The further properties on concrete circuits *)

Section MoreWitnesses.
Import Example.

#[local] Existing Instance accepting.
#[local] Existing Instance bls12377.lib.

Local Abbreviation p := bls12377.p.
Local Abbreviation ext := bls12377.ext.

Lemma Add_Neg_cancel_witness :
  ∃ r : E2,
    stored ((Neg 1%nat x;; n ← load 1%nat; Add 1%nat x n) s0) 1%nat = Some r ∧
    eval_E2 p w0 r = (0, 0).
Proof. exact (Add_Neg_cancel p s0 1%nat E2_zero_value x w0 eq_refl). Defined.

Lemma Double_is_Add_self_witness :
  Double 1%nat x s0 = Add 1%nat x x s0 ∧
  ∃ r : E2, stored (Double 1%nat x s0) 1%nat = Some r ∧ eval_E2 p w0 r = (4, 6).
Proof.
  destruct (Double_is_Add_self p s0 1%nat E2_zero_value x w0 eq_refl)
    as (Hsame & r & Hr & Hev).
  split; [apply Hsame|]. exists r. split; [exact Hr|].
  rewrite Hev. vm_compute. reflexivity.
Defined.

Lemma Sub_is_Add_Neg_witness :
  ∃ r1 r2 : E2,
    stored (Sub 1%nat x y s0) 1%nat = Some r1 ∧
    stored ((Neg 1%nat y;; n ← load 1%nat; Add 1%nat x n) s0) 1%nat
      = Some r2 ∧
    eval_E2 p w0 r1 = eval_E2 p w0 r2.
Proof. exact (Sub_is_Add_Neg p s0 1%nat E2_zero_value x y w0 eq_refl). Defined.

Lemma Add_Sub_round_trip_witness :
  ∃ r : E2,
    stored ((Add 1%nat x y;; t ← load 1%nat; Sub 1%nat t y) s0) 1%nat
      = Some r ∧
    eval_E2 p w0 r = (2, 3).
Proof.
  destruct (Add_Sub_round_trip p s0 1%nat E2_zero_value x y w0 eq_refl)
    as (r & Hr & Hev).
  exists r. split; [exact Hr|]. rewrite Hev. vm_compute. reflexivity.
Defined.

Lemma Add_comm_assoc_witness :
  ∃ xy yx l r : E2,
    stored (Add 1%nat x y s0) 1%nat = Some xy ∧
    stored (Add 1%nat y x s0) 1%nat = Some yx ∧
    eval_E2 p w0 xy = eval_E2 p w0 yx ∧
    stored ((Add 1%nat x y;; t ← load 1%nat; Add 1%nat t z) s0) 1%nat
      = Some l ∧
    stored ((Add 1%nat y z;; t ← load 1%nat; Add 1%nat x t) s0) 1%nat
      = Some r ∧
    eval_E2 p w0 l = eval_E2 p w0 r.
Proof. exact (Add_comm_assoc p s0 1%nat E2_zero_value x y z w0 eq_refl). Defined.

Lemma SetZero_neutral_witness :
  ∃ r1 r2 : E2,
    stored ((SetZero 1%nat;; o ← load 1%nat; Add 1%nat x o) s0) 1%nat
      = Some r1 ∧
    eval_E2 p w0 r1 = eval_E2 p w0 x ∧
    stored ((SetZero 1%nat;; o ← load 1%nat; Mul ext 1%nat x o) s0) 1%nat
      = Some r2 ∧
    eval_E2 p w0 r2 = (0, 0).
Proof. exact (SetZero_neutral p ext s0 1%nat E2_zero_value x w0 eq_refl). Defined.

Lemma SetOne_neutral_witness :
  ∃ r1 r2 : E2,
    stored ((SetOne 1%nat;; o ← load 1%nat; Mul ext 1%nat x o) s0) 1%nat
      = Some r1 ∧
    eval_E2 p w0 r1 = eval_E2 p w0 x ∧
    stored ((SetOne 1%nat;; o ← load 1%nat; Mul ext 1%nat o x) s0) 1%nat
      = Some r2 ∧
    eval_E2 p w0 r2 = eval_E2 p w0 x.
Proof. exact (SetOne_neutral p ext s0 1%nat E2_zero_value x w0 eq_refl). Defined.

Lemma Mul_comm_witness :
  ∃ xy yx : E2,
    stored (Mul ext 1%nat x y s0) 1%nat = Some xy ∧
    stored (Mul ext 1%nat y x s0) 1%nat = Some yx ∧
    eval_E2 p w0 xy = eval_E2 p w0 yx.
Proof. exact (Mul_comm p ext s0 1%nat E2_zero_value x y w0 eq_refl). Defined.

Lemma Mul_assoc_witness :
  ∃ l r : E2,
    stored ((Mul ext 1%nat x y;; t ← load 1%nat; Mul ext 1%nat t z) s0) 1%nat
      = Some l ∧
    stored ((Mul ext 1%nat y z;; t ← load 1%nat; Mul ext 1%nat x t) s0) 1%nat
      = Some r ∧
    eval_E2 p w0 l = eval_E2 p w0 r.
Proof. exact (Mul_assoc p ext s0 1%nat E2_zero_value x y z w0 eq_refl). Defined.

Lemma Mul_distributes_over_Add_witness :
  ∃ l r : E2,
    stored ((Add 1%nat y z;; t ← load 1%nat; Mul ext 1%nat x t) s0) 1%nat
      = Some l ∧
    stored ((Mul ext 1%nat x y;; a ← load 1%nat; Mul ext 1%nat x z;;
             b ← load 1%nat; Add 1%nat a b) s0) 1%nat = Some r ∧
    eval_E2 p w0 l = eval_E2 p w0 r.
Proof.
  exact (Mul_distributes_over_Add p ext s0 1%nat E2_zero_value x y z w0
           eq_refl).
Defined.

Lemma Mul_Conjugate_norm_witness :
  ∃ r : E2,
    stored ((Conjugate 1%nat x;; cx ← load 1%nat; Mul ext 1%nat x cx) s0)
      1%nat = Some r ∧
    eval_E2 p w0 r = (49, 0).
Proof.
  destruct (Mul_Conjugate_norm p ext s0 1%nat E2_zero_value x w0 eq_refl)
    as (r & Hr & Hev).
  exists r. split; [exact Hr|]. rewrite Hev. vm_compute. reflexivity.
Defined.

Lemma Conjugate_Mul_witness :
  ∃ l r : E2,
    stored ((Mul ext 1%nat x y;; t ← load 1%nat; Conjugate 1%nat t) s0) 1%nat
      = Some l ∧
    stored ((Conjugate 1%nat x;; cx ← load 1%nat; Conjugate 1%nat y;;
             cy ← load 1%nat; Mul ext 1%nat cx cy) s0) 1%nat = Some r ∧
    eval_E2 p w0 l = eval_E2 p w0 r.
Proof. exact (Conjugate_Mul p ext s0 1%nat E2_zero_value x y w0 eq_refl). Defined.

Lemma MulByNonResidue_twice_witness :
  ∃ l r : E2,
    stored ((MulByNonResidue ext 1%nat x;; t ← load 1%nat;
             MulByNonResidue ext 1%nat t) s0) 1%nat = Some l ∧
    stored (MulByFp 1%nat x (Constant (-5)) s0) 1%nat = Some r ∧
    eval_E2 p w0 l = eval_E2 p w0 r.
Proof.
  exact (MulByNonResidue_twice p ext s0 1%nat E2_zero_value x w0 eq_refl).
Defined.

Lemma MulByFp_is_Mul_witness :
  ∃ l r : E2,
    stored (MulByFp 1%nat x (Constant 5) s0) 1%nat = Some l ∧
    stored (Mul ext 1%nat x (mkE2 (Constant 5) (Constant 0)) s0) 1%nat
      = Some r ∧
    eval_E2 p w0 l = eval_E2 p w0 r.
Proof.
  exact (MulByFp_is_Mul p ext s0 1%nat E2_zero_value x (Constant 5) w0 eq_refl).
Defined.

Lemma Square_value_witness :
  ∃ r : E2,
    stored (Square {| uSquare := -1 |} 1%nat x s0) 1%nat = Some r ∧
    eval_E2 p w0 r = (2 * 2 - 3 * 3 + 4 * (2 * 3), 12).
Proof.
  destruct (Square_value p {| uSquare := -1 |} s0 1%nat E2_zero_value x w0
              eq_refl) as (r & Hr & Hev).
  exists r. split; [exact Hr|]. rewrite Hev. vm_compute. reflexivity.
Defined.

(** Constraints of a concrete system under a concrete witness. *)
Ltac check_constraints :=
  unfold satisfied; cbv [s0 empty_CS builder constraints app];
  repeat (constructor; [vm_compute; reflexivity|]); constructor.

Lemma MustBeEqual_satisfied_iff_witness :
  ∃ s1 : State ConstraintSystem,
    MustBeEqual 0%nat (mkE2 (Constant (p + 2)) (Constant 3)) s0 = Ret tt s1 ∧
    length (constraints (builder s1)) = 2%nat ∧
    satisfied p w0 (builder s1) ∧
    (satisfied p w0 (builder s1) ->
     eval_E2 p w0 x = eval_E2 p w0 (mkE2 (Constant (p + 2)) (Constant 3))).
Proof.
  destruct (MustBeEqual_satisfied_iff p s0 0%nat x
              (mkE2 (Constant (p + 2)) (Constant 3)) eq_refl)
    as (s1 & Hrun & _ & _ & _ & Hlen & Hiff).
  exists s1. split; [exact Hrun|]. split; [exact Hlen|]. split.
  - apply Hiff. split; [constructor|]. vm_compute. reflexivity.
  - intros Hs. apply Hiff in Hs. exact (proj2 Hs).
Defined.

Lemma hinted_constraints_exact_witness :
  ∃ s1 s2 : State ConstraintSystem,
    Inverse ext 1%nat x s0 = Ret 1%nat s1 ∧
    satisfied p w_inverse (builder s1) ∧
    DivUnchecked ext 1%nat y x s0 = Ret 1%nat s2 ∧
    satisfied p w_div (builder s2).
Proof.
  destruct (hinted_constraints_exact p ext s0 1%nat E2_zero_value y x
              eq_refl eq_refl eq_refl)
    as (prod & Hprod & (s1 & Hi & _ & Hiffi) & (s2 & Hd & _ & Hiffd)).
  injection Hprod as <-.
  exists s1, s2. split; [exact Hi|]. split.
  - apply Hiffi. split; [constructor|]. vm_compute. reflexivity.
  - split; [exact Hd|]. apply Hiffd. split; [constructor|].
    vm_compute. reflexivity.
Defined.

Lemma Inverse_unique_witness :
  ∃ s1 : State ConstraintSystem,
    Inverse ext 1%nat x s0 = Ret 1%nat s1 ∧
    satisfied p w_inverse (builder s1) ∧
    eval_E2 p w_inverse (mkE2 (Wire 0) (Wire 1))
      = eval_E2 p w_inverse
          (mkE2 (Constant (w_inverse 0%nat)) (Constant (w_inverse 1%nat))).
Proof.
  destruct (Inverse_unique p ext s0 1%nat E2_zero_value x eq_refl eq_refl)
    as (s1 & r & Hrun & Hr & Huniq).
  pose proof (Inverse_run (HA := accepting) ext s0 1%nat E2_zero_value x
                eq_refl eq_refl) as Hrun'.
  rewrite Hrun in Hrun'. injection Hrun' as ->.
  injection Hr as <-.
  specialize (Huniq w_inverse
    (mkE2 (Constant (w_inverse 0%nat)) (Constant (w_inverse 1%nat)))).
  match type of Huniq with
  | ∀ ym, ?A -> _ => assert (Hs : A) by check_constraints
  end.
  eexists. split; [exact Hrun|]. split; [exact Hs|].
  eapply (Huniq _ Hs); [reflexivity|].
  vm_compute. reflexivity.
Defined.

Lemma DivUnchecked_zero_divisor_witness :
  ∃ s1 : State ConstraintSystem,
    DivUnchecked ext 1%nat (mkE2 (Constant 0) (Constant p))
      (mkE2 (Constant 0) (Constant 0)) s0 = Ret 1%nat s1 ∧
    satisfied p w_quotient (builder s1) ∧ satisfied p w_23 (builder s1).
Proof.
  destruct (DivUnchecked_zero_divisor p ext s0 1%nat E2_zero_value
              (mkE2 (Constant 0) (Constant p))
              (mkE2 (Constant 0) (Constant 0)) w_quotient
              eq_refl eq_refl eq_refl) as (s1 & Hrun & Hiff).
  destruct (DivUnchecked_zero_divisor p ext s0 1%nat E2_zero_value
              (mkE2 (Constant 0) (Constant p))
              (mkE2 (Constant 0) (Constant 0)) w_23
              eq_refl eq_refl eq_refl) as (s1' & Hrun' & Hiff').
  rewrite Hrun in Hrun'. injection Hrun' as <-.
  exists s1. split; [exact Hrun|]. split.
  - apply Hiff. split; [constructor|]. vm_compute. reflexivity.
  - apply Hiff'. split; [constructor|]. vm_compute. reflexivity.
Defined.

(** The constraints registered by a run, read off by evaluation, hold under
    a concrete witness. *)
Ltac satisfied_after Hrun :=
  let Hc := fresh "Hc" in
  pose proof (f_equal (fun o => option_map constraints (built o)) Hrun) as Hc;
  vm_compute in Hc; injection Hc as Hc;
  unfold satisfied, constraints, builder; rewrite <- Hc;
  repeat (constructor; [vm_compute; reflexivity|]); constructor.

Lemma Inverse_involutive_witness :
  ∃ (s2 : State ConstraintSystem) (r2 : E2),
    (Inverse ext 1%nat x;; r ← load 1%nat; Inverse ext 1%nat r) s0
      = Ret 1%nat s2 ∧
    heap s2 !! 1%nat = Some r2 ∧
    satisfied p w_involution (builder s2) ∧
    eval_E2 p w_involution r2 = (2, 3).
Proof.
  destruct (Inverse_involutive p ext s0 1%nat E2_zero_value x eq_refl eq_refl)
    as (s2 & r2 & Hrun & Hr & Hinv).
  assert (Hs : satisfied p w_involution (builder s2)) by satisfied_after Hrun.
  exists s2, r2. split; [exact Hrun|]. split; [exact Hr|].
  split; [exact Hs|]. rewrite (Hinv _ Hs). vm_compute. reflexivity.
Defined.

Lemma DivUnchecked_is_Mul_Inverse_witness :
  ∃ (s3 : State ConstraintSystem) (d m : E2),
    (DivUnchecked ext 1%nat y x;; d ← load 1%nat;
     Inverse ext 1%nat x;; r ← load 1%nat;
     Mul ext 1%nat y r;; m ← load 1%nat;
     mret (d, m)) s0 = Ret (d, m) s3 ∧
    satisfied p w_div_inverse (builder s3) ∧
    eval_E2 p w_div_inverse d = eval_E2 p w_div_inverse m.
Proof.
  destruct (DivUnchecked_is_Mul_Inverse p ext s0 1%nat E2_zero_value y x
              eq_refl eq_refl eq_refl) as (s3 & d & m & Hrun & Heq).
  assert (Hs : satisfied p w_div_inverse (builder s3)).
  { pose proof (f_equal (fun o => match o with
                                  | Ret _ s => Some (constraints (builder s))
                                  | Panic _ => None
                                  end) Hrun) as Hc.
    vm_compute in Hc. injection Hc as Hc.
    unfold satisfied, constraints, builder. rewrite <- Hc.
    repeat (constructor; [vm_compute; reflexivity|]); constructor. }
  exists s3, d, m. split; [exact Hrun|]. split; [exact Hs|].
  exact (Heq _ Hs).
Defined.

Lemma MulByFp_DivByFp_round_trip_witness :
  ∃ (s1 : State ConstraintSystem) (d : E2),
    (MulByFp 1%nat x (Constant 5);; t ← load 1%nat;
     DivByFp 1%nat t (Constant 5)) s0 = Ret 1%nat s1 ∧
    heap s1 !! 1%nat = Some d ∧
    satisfied p w_23 (builder s1) ∧
    eval_E2 p w_23 d = (2, 3).
Proof.
  destruct (MulByFp_DivByFp_round_trip p s0 1%nat E2_zero_value x (Constant 5)
              eq_refl) as (s1 & d & Hrun & Hd & Hrt).
  assert (Hs : satisfied p w_23 (builder s1)) by satisfied_after Hrun.
  exists s1, d. split; [exact Hrun|]. split; [exact Hd|]. split; [exact Hs|].
  rewrite (Hrt w_23 (Z.invmod 5 p) Hs) by (vm_compute; reflexivity).
  vm_compute. reflexivity.
Defined.

Lemma nil_receiver_panics_witness :
  Mul ext 7%nat x y s0 = Panic nil_dereference ∧
  SetOne 7%nat s0 = Panic nil_dereference ∧
  MustBeEqual 7%nat y s0 = Panic nil_dereference.
Proof.
  destruct (nil_receiver_panics ext s0 7%nat x y (Constant 5) eq_refl)
    as (_ & Hone & _ & _ & _ & _ & Hmul & _ & _ & _ & _ & _ & Heq).
  split; [exact Hmul|]. split; [exact Hone|exact Heq].
Defined.

Lemma methods_write_only_receiver_witness :
  stored (Mul ext 1%nat y z s0) 0%nat = Some x ∧
  stored (Inverse ext 1%nat y s0) 0%nat = Some x ∧
  stored (MustBeEqual 1%nat y s0) 0%nat = Some x.
Proof.
  destruct (methods_write_only_receiver ext s0 1%nat 0%nat E2_zero_value x
              y z (Constant 5) eq_refl eq_refl ltac:(discriminate)
              eq_refl eq_refl) as (Hall & Heq).
  rewrite Forall_forall in Hall.
  split; [|split; [|exact Heq]].
  - apply (Hall (Mul ext 1%nat y z s0)). repeat constructor.
  - apply (Hall (Inverse ext 1%nat y s0)). repeat constructor.
Defined.

Lemma hints_panic_on_short_slices_witness :
  InverseE2Hint BW6_761 [2] [0; 0] = HPanic (RuntimeError "index out of range")
  ∧ InverseE2Hint BW6_761 [2; 3] [0]
    = HPanic (RuntimeError "index out of range")
  ∧ DivE2Hint BW6_761 [5; 7; 2] [0; 0]
    = HPanic (RuntimeError "index out of range").
Proof.
  split; [|split].
  - apply (proj1 (hints_panic_on_short_slices BW6_761 [2] [0; 0])).
    left. simpl. lia.
  - apply (proj1 (hints_panic_on_short_slices BW6_761 [2; 3] [0])).
    right. simpl. lia.
  - apply (proj2 (hints_panic_on_short_slices BW6_761 [5; 7; 2] [0; 0])).
    left. simpl. lia.
Defined.

Lemma hints_overwrite_two_outputs_witness :
  ∃ o0 o1 : Z,
    InverseE2Hint BW6_761 [2; 3; 99] [7; 7; 8; 9]
      = HReturn [o0; o1; 8; 9] None ∧
    InverseE2Hint BN254 [2; 3] [0; 0] = HReturn [o0; o1] None.
Proof.
  destruct (hints_overwrite_two_outputs BW6_761 [2; 3; 99] [7; 7; 8; 9])
    as [Hinv _]; [simpl; lia|].
  destruct Hinv as (o0 & o1 & Hrun & Hpure); [simpl; lia|].
  exists o0, o1. split; [exact Hrun|]. exact (Hpure BN254 0 0 []).
Defined.

Lemma short_hint_output_panics_witness :
  Inverse (api := truncating_API) ext 1%nat x s0
    = Panic (RuntimeError "slice bounds out of range") ∧
  DivUnchecked (api := truncating_API) ext 1%nat y x s0
    = Panic (RuntimeError "slice bounds out of range").
Proof.
  split.
  - apply (proj1 (short_hint_output_panics (api := truncating_API) ext s0
                    1%nat x x [Wire 0]
                    (mkCS 1 [] [mkHintCall InverseE2Hint [A0 x; A1 x] [0%nat]])
                    ltac:(simpl; lia))).
    reflexivity.
  - apply (proj2 (short_hint_output_panics (api := truncating_API) ext s0
                    1%nat y x [Wire 0]
                    (mkCS 1 []
                       [mkHintCall DivE2Hint [A0 y; A1 y; A0 x; A1 x] [0%nat]])
                    ltac:(simpl; lia))).
    reflexivity.
Defined.

End MoreWitnesses.
